(** * memory.py: a byte-addressable memory for a simple CPU emulator

    A shallow embedding of [memory.py] (classes [Program], [Loader],
    [StaticLoader], [DynamicLoader], [Memory], [Pagination]) and the
    properties of its memory-management core.

    Conventions of the embedding.
    - A Python [int] is a [Z].  A [bytearray] is a [list Z] whose elements
      are bytes ([0 <= b < 256]); the checks Python performs when a byte is
      stored are written out.
    - A raised exception is a value of [exn]; a method is a function of the
      state it can mutate that returns its result together with the state it
      leaves behind, also when it raises.
    - [bytearray] objects that are shared by reference (the buffer of a
      [Memory], the [data] of a partition record) live in a heap; the class
      attribute [Memory.partitions] is one list for the whole interpreter.
    - The [print] calls of the methods that change the store are left out.
      The text of the two [inspect] methods is modelled: the standard output
      is the list of the lines written, and [render] gives their characters.
      Memory exhaustion of the interpreter is not modelled. *)

From stdpp Require Import base list gmap strings.
From Stdlib Require Import HexadecimalString.

(** ** Exceptions and results *)

Inductive exn : Set :=
  | MemoryError
  | IndexError
  | ValueError
  | ZeroDivisionError
  | TypeError
  | SystemError.  (* a reference to no object: not reachable from Python code *)

Inductive result (A : Type) : Type :=
  | Ok (a : A)
  | Raise (e : exn).
Arguments Ok {A} a.
Arguments Raise {A} e.

(** A computation over a mutable state [S]: the state is returned in both
    outcomes, since an exception does not undo what was written before it. *)
Definition M (S A : Type) : Type := S → result A * S.

Definition ret {S A} (a : A) : M S A := λ s, (Ok a, s).
Definition raise {S A} (e : exn) : M S A := λ s, (Raise e, s).
Definition bind {S A B} (m : M S A) (k : A → M S B) : M S B :=
  λ s, match m s with
       | (Ok a, s') => k a s'
       | (Raise e, s') => (Raise e, s')
       end.
Definition lift {S A} (r : result A) : M S A := λ s, (r, s).

Notation "'let*' x ':=' m 'in' k" := (bind m (λ x, k))
  (at level 10, x pattern, m at level 100, k at level 200, only parsing).

(** [for x in xs: body(x)] *)
Fixpoint for_each {S A} (xs : list A) (body : A → M S unit) : M S unit :=
  match xs with
  | [] => ret tt
  | x :: xs' => let* _ := body x in for_each xs' body
  end.

(** ** Python built-ins used by the program *)

Abbreviation buffer := (list Z) (only parsing).

Definition is_byte (v : Z) : Prop := (0 ≤ v < 256)%Z.

(** [bytearray(n)]: [n] zero bytes; [ValueError] for a negative count. *)
Definition bytearray (n : Z) : result buffer :=
  if decide (n < 0)%Z then Raise ValueError
  else Ok (replicate (Z.to_nat n) 0%Z).

(** A slice bound against a sequence of length [len]: a negative bound counts
    from the end, and every bound is clamped to [0 .. len]. *)
Definition slice_bound (len : nat) (i : Z) : nat :=
  if decide (i < 0)%Z then Z.to_nat (i + Z.of_nat len)
  else Z.to_nat i `min` len.

(** [b[lo:hi]]: a new sequence (a copy). *)
Definition getslice (b : buffer) (lo hi : Z) : buffer :=
  let l := slice_bound (length b) lo in
  let h := slice_bound (length b) hi in
  take (h - l) (drop l b).

(** [b[lo:hi] = src] on a bytearray: the slice is replaced by the whole of
    [src], so the bytearray is resized when the lengths differ. *)
Definition setslice (b : buffer) (lo hi : Z) (src : buffer) : buffer :=
  let l := slice_bound (length b) lo in
  let h := slice_bound (length b) hi `max` l in
  take l b ++ src ++ drop h b.

(** [range(start, stop, step)] for a non-zero [step]. *)
Definition range_len (start stop step : Z) : nat :=
  if decide (0 < step)%Z then Z.to_nat ((stop - start + step - 1) / step)
  else if decide (step < 0)%Z then Z.to_nat ((start - stop - step - 1) / (- step))
  else 0.

Definition range (start stop step : Z) : list Z :=
  (λ k : nat, (start + Z.of_nat k * step)%Z) <$> seq 0 (range_len start stop step).

(** ** class Program *)

Module Program.

Record t : Type := mk { size : Z; instructions : buffer }.

(** [__init__(self, size=32)] *)
Definition init (size : Z) : result t :=
  match bytearray size with
  | Ok b => Ok {| size := size; instructions := b |}
  | Raise e => Raise e
  end.

(** The loop of [add_instruction]: [n] iterations are left and the next
    value of [i] is [i]. *)
Fixpoint add_instruction_loop (n i : nat) (instruction : Z) : M t Z :=
  λ self,
    match n with
    | O => (Raise MemoryError, self)
    | S n' =>
        match instructions self !! i with
        | None => (Raise IndexError, self)
        | Some b =>
            if decide (b = 0%Z) then
              if decide (is_byte instruction) then
                (Ok (Z.of_nat i),
                 {| size := size self;
                    instructions := <[i := instruction]> (instructions self) |})
              else (Raise ValueError, self)
            else add_instruction_loop n' (S i) instruction self
        end
    end.

(** [add_instruction(self, instruction)] *)
Definition add_instruction (instruction : Z) : M t Z :=
  λ self, add_instruction_loop (Z.to_nat (size self)) 0 instruction self.

(** Consecutive calls of [add_instruction], stopping at the first one that
    raises; the addresses returned so far are lost with it. *)
Fixpoint add_instructions (vs : list Z) : M t (list Z) :=
  match vs with
  | [] => ret []
  | v :: vs' =>
      let* i := add_instruction v in
      let* rest := add_instructions vs' in
      ret (i :: rest)
  end.

End Program.

(** ** class Loader and its subclasses *)

Inductive Loader : Set := BaseLoader | StaticLoader | DynamicLoader.

Module StaticLoader.

(** [for _byte in memory:] over the bytes [rest] still to visit. *)
Fixpoint load_loop (rest : buffer) (program : Program.t) : M buffer unit :=
  λ memory,
    match rest with
    | [] => (Raise MemoryError, memory)
    | _byte :: rest' =>
        if decide (_byte = 0%Z) then
          (Ok tt,
           setslice memory 0 (Z.of_nat (length (Program.instructions program)))
             (Program.instructions program))
        else load_loop rest' program memory
    end.

(** [load(self, program, memory)] *)
Definition load (program : Program.t) : M buffer unit :=
  λ memory, load_loop memory program memory.

End StaticLoader.

Module DynamicLoader.

(** [for i in range(len(memory)):] with [n] iterations left. *)
Fixpoint load_loop (n i : nat) (program : Program.t) : M buffer unit :=
  λ memory,
    match n with
    | O => (Raise MemoryError, memory)
    | S n' =>
        match memory !! i with
        | None => (Raise IndexError, memory)
        | Some b =>
            if decide (b = 0%Z) then
              (Ok tt,
               setslice memory (Z.of_nat i)
                 (Z.of_nat i + Z.of_nat (length (Program.instructions program)))
                 (Program.instructions program))
            else load_loop n' (S i) program memory
        end
    end.

(** [load(self, program, memory)] *)
Definition load (program : Program.t) : M buffer unit :=
  λ memory, load_loop (length memory) 0 program memory.

End DynamicLoader.

(** [loader.load(program, memory)].  The base class declares
    [load(self, program)]: calling it with a buffer is a [TypeError]. *)
Definition Loader_load (loader : Loader) (program : Program.t) : M buffer unit :=
  match loader with
  | BaseLoader => raise TypeError
  | StaticLoader => StaticLoader.load program
  | DynamicLoader => DynamicLoader.load program
  end.

(** ** The store: bytearray objects, [Memory] objects, class attributes *)

Definition loc : Set := nat.  (* the identity of a bytearray object *)
Definition ref : Set := nat.  (* the identity of a [Memory] object *)

Module Memory.

(** One entry of [partitions]: the dict [{'start', 'end', 'data'}]; [data]
    refers to a bytearray object of its own. *)
Record partition_record : Set := { start : Z; end_ : Z; data : loc }.

(** The attributes [__init__] binds on an instance.  No method binds
    [partitions] on an instance, so [self.partitions] is always the class
    attribute. *)
Record t : Set := { size : Z; memory : loc }.

End Memory.

Record World : Type := {
  heap : list buffer;                                (* bytearray objects *)
  Memory_partitions : list Memory.partition_record;  (* class attribute [Memory.partitions = []] *)
  Memory_objects : list Memory.t                     (* [Memory] instances *)
}.

(** The store when the module has been loaded: [partitions = []] was run once,
    in the class body. *)
Definition World_init : World :=
  {| heap := []; Memory_partitions := []; Memory_objects := [] |}.

Definition alloc (b : buffer) : M World loc :=
  λ w, (Ok (length (heap w)),
        {| heap := heap w ++ [b];
           Memory_partitions := Memory_partitions w;
           Memory_objects := Memory_objects w |}).

Definition deref (l : loc) : M World buffer :=
  λ w, match heap w !! l with
       | Some b => (Ok b, w)
       | None => (Raise SystemError, w)
       end.

(** Run a computation that mutates the bytearray object [l] in place. *)
Definition on_buffer {A} (l : loc) (m : M buffer A) : M World A :=
  λ w, match heap w !! l with
       | Some b =>
           let '(r, b') := m b in
           (r, {| heap := <[l := b']> (heap w);
                  Memory_partitions := Memory_partitions w;
                  Memory_objects := Memory_objects w |})
       | None => (Raise SystemError, w)
       end.

Definition attrs (self : ref) : M World Memory.t :=
  λ w, match Memory_objects w !! self with
       | Some o => (Ok o, w)
       | None => (Raise SystemError, w)
       end.

Definition new_object (o : Memory.t) : M World ref :=
  λ w, (Ok (length (Memory_objects w)),
        {| heap := heap w;
           Memory_partitions := Memory_partitions w;
           Memory_objects := Memory_objects w ++ [o] |}).

Definition set_attrs (self : ref) (o : Memory.t) : M World unit :=
  λ w, (Ok tt,
        {| heap := heap w;
           Memory_partitions := Memory_partitions w;
           Memory_objects := <[self := o]> (Memory_objects w) |}).

(** [Memory.partitions.append(r)] *)
Definition partitions_append (r : Memory.partition_record) : M World unit :=
  λ w, (Ok tt,
        {| heap := heap w;
           Memory_partitions := Memory_partitions w ++ [r];
           Memory_objects := Memory_objects w |}).

(** ** class Memory *)

(** [Memory(size)]: [__init__(self, size=512)] on a new object. *)
Definition Memory_init (size : Z) : M World ref :=
  let* b := lift (bytearray size) in
  let* l := alloc b in
  new_object {| Memory.size := size; Memory.memory := l |}.

(** [reset(self)]: [self.memory] is bound to a new bytearray object. *)
Definition Memory_reset (self : ref) : M World unit :=
  let* o := attrs self in
  let* b := lift (bytearray (Memory.size o)) in
  let* l := alloc b in
  set_attrs self {| Memory.size := Memory.size o; Memory.memory := l |}.

(** [add(self, program, loader)]: the loader works on the object
    [self.memory] itself. *)
Definition Memory_add (self : ref) (program : Program.t) (loader : Loader) : M World unit :=
  let* o := attrs self in
  on_buffer (Memory.memory o) (Loader_load loader program).

(** [self.memory[address]] for an [address >= 0]. *)
Definition getitem (b : buffer) (address : Z) : result Z :=
  match b !! Z.to_nat address with
  | Some v => Ok v
  | None => Raise IndexError
  end.

(** [self.memory[address] = value] for an [address >= 0] and a byte [value]. *)
Definition setitem (address value : Z) : M buffer unit :=
  λ b, match b !! Z.to_nat address with
       | Some _ => (Ok tt, <[Z.to_nat address := value]> b)
       | None => (Raise IndexError, b)
       end.

(** [read(self, address)] *)
Definition Memory_read (self : ref) (address : Z) : M World Z :=
  let* o := attrs self in
  if decide (0 ≤ address < Memory.size o)%Z then
    let* b := deref (Memory.memory o) in
    lift (getitem b address)
  else raise IndexError.

(** [write(self, address, value)] *)
Definition Memory_write (self : ref) (address value : Z) : M World unit :=
  let* o := attrs self in
  if decide (0 ≤ address < Memory.size o)%Z then
    if decide (0 ≤ value < 256)%Z then
      on_buffer (Memory.memory o) (setitem address value)
    else raise ValueError
  else raise IndexError.

(** [partition(self, start, end)] *)
Definition Memory_partition (self : ref) (start end_ : Z) : M World unit :=
  let* o := attrs self in
  if decide (0 ≤ start ∧ start < end_ ∧ end_ ≤ Memory.size o)%Z then
    let* b := deref (Memory.memory o) in
    let* d := alloc (getslice b start end_) in
    partitions_append {| Memory.start := start; Memory.end_ := end_; Memory.data := d |}
  else raise IndexError.

(** ** The text written by [inspect] *)

(** One line of the standard output, by the [print] call that writes it. *)
Inductive line : Type :=
  | Line_title                          (* [print("Current memory state:")] *)
  | Line_header                         (* the sixteen column numbers *)
  | Line_partition_start (start : Z)    (* ["Partition start: ..."] *)
  | Line_partition_end (end_ : Z)       (* ["Partition end ..."] *)
  | Line_row (i : Z) (bytes : list Z).  (* an address and up to sixteen bytes *)

(** [print(...)]: the line is appended to the standard output. *)
Definition print (l : line) : M (list line) unit :=
  λ out, (Ok tt, out ++ [l]).

(** [[self.memory[j] for j in js]], the addresses being non-negative. *)
Fixpoint row_bytes (b : buffer) (js : list Z) : result (list Z) :=
  match js with
  | [] => Ok []
  | j :: js' =>
      match getitem b j with
      | Ok v =>
          match row_bytes b js' with
          | Ok vs => Ok (v :: vs)
          | Raise e => Raise e
          end
      | Raise e => Raise e
      end
  end.

(** The body of the loop [for i in range(0, self.size, 16)]: the row is
    built first, then the partition markers are written, then the row. *)
Definition inspect_row (b : buffer) (size : Z)
    (partitions : list Memory.partition_record) (i : Z) : M (list line) unit :=
  let* bytes := lift (row_bytes b (range i (Z.min (i + 16) size) 1)) in
  let* _ := for_each partitions (λ part,
              let* _ := (if decide (Memory.start part = i)
                         then print (Line_partition_start (Memory.start part))
                         else ret tt) in
              if decide (Memory.end_ part = i)
              then print (Line_partition_end (Memory.end_ part))
              else ret tt) in
  print (Line_row i bytes).

(** [Memory.inspect(self)]: the store is only read; the state is the
    standard output. *)
Definition Memory_inspect (self : ref) (w : World) : M (list line) unit :=
  match Memory_objects w !! self with
  | None => raise SystemError
  | Some o =>
      let* _ := print Line_title in
      let* _ := print Line_header in
      for_each (range 0 (Memory.size o) 16)
        (λ i, match heap w !! Memory.memory o with
              | None => raise SystemError
              | Some b => inspect_row b (Memory.size o) (Memory_partitions w) i
              end)
  end.

(** *** The characters of a line *)

Definition ESC : string := String (Ascii.ascii_of_nat 27) "".
Definition PARTITION_COLOR : string := ESC +:+ "[94m".
Definition ADDRESS_COLOR : string := ESC +:+ "[94m".
Definition RESET : string := ESC +:+ "[0m".

(** [format(n, "0{width}x")]: lower-case hexadecimal, filled with zeros up
    to [width] characters, the sign of a negative number first. *)
Definition zfill (width : nat) (digits : string) : string :=
  String.concat "" (replicate (width - String.length digits) "0") +:+ digits.

Definition format_x (width : nat) (n : Z) : string :=
  if decide (n < 0)%Z
  then "-" +:+ zfill (width - 1) (NilZero.string_of_uint (N.to_hex_uint (Z.to_N (- n))))
  else zfill width (NilZero.string_of_uint (N.to_hex_uint (Z.to_N n))).

(** [' '.join(parts)] *)
Definition join_spaces (parts : list string) : string := String.concat " " parts.

Definition render (l : line) : string :=
  match l with
  | Line_title => "Current memory state:"
  | Line_header =>
      ADDRESS_COLOR +:+ "    :" +:+ RESET +:+ " " +:+
      String.concat ""
        ((λ i, ADDRESS_COLOR +:+ format_x 2 (i + 1) +:+ RESET +:+ " ") <$> range 0 16 1)
  | Line_partition_start start =>
      PARTITION_COLOR +:+ "Partition start: " +:+ format_x 4 start +:+ ":" +:+ RESET
  | Line_partition_end end_ =>
      PARTITION_COLOR +:+ "Partition end " +:+ format_x 4 end_ +:+ ":" +:+ RESET
  | Line_row i bytes =>
      ADDRESS_COLOR +:+ format_x 4 i +:+ ":" +:+ RESET +:+ " " +:+
      join_spaces (format_x 2 <$> bytes)
  end.

(** The characters written: every line ends with a newline. *)
Definition stdout_text (out : list line) : string :=
  String.concat "" ((λ l, render l +:+ String (Ascii.ascii_of_nat 10) "") <$> out).

(** ** class Pagination *)

Module Pagination.

(** [pages] maps every key to [None], written [tt]. *)
Record t : Type := {
  size : Z;
  memory : ref;
  page_size : Z;
  pages : gmap Z unit
}.

(** [__init__(self, memory, size=128)] *)
Definition init (memory : ref) (size : Z) : M World t :=
  let* o := attrs memory in
  if decide (size = 0%Z) then raise ZeroDivisionError
  else
    let page_size := (Memory.size o `div` size)%Z in
    let pages := list_to_map ((λ i, (i, tt)) <$> range 0 page_size 1) in
    let* _ := for_each (range 0 (Memory.size o) size)
                (λ i, Memory_partition memory i
                        (Z.min (i + page_size) (Memory.size o))) in
    ret {| size := size; memory := memory; page_size := page_size; pages := pages |}.

(** [inspect(self)]: the dump of [Memory.inspect], written out again over
    [self.memory]. *)
Definition inspect (self : t) (w : World) : M (list line) unit :=
  match Memory_objects w !! memory self with
  | None => raise SystemError
  | Some o =>
      let* _ := print Line_title in
      let* _ := print Line_header in
      for_each (range 0 (Memory.size o) 16)
        (λ i, match heap w !! Memory.memory o with
              | None => raise SystemError
              | Some b => inspect_row b (Memory.size o) (Memory_partitions w) i
              end)
  end.

End Pagination.

(** ** Calls of the public API of [Memory] *)

(** [self.partitions] read through an instance: the attribute is found on the
    class, whatever the instance. *)
Definition Memory_get_partitions (self : ref) (w : World) : list Memory.partition_record :=
  Memory_partitions w.

Inductive call : Type :=
  | Call_init (size : Z)
  | Call_reset (self : ref)
  | Call_add (self : ref) (program : Program.t) (loader : Loader)
  | Call_read (self : ref) (address : Z)
  | Call_write (self : ref) (address value : Z)
  | Call_partition (self : ref) (start end_ : Z).

(** The store a call leaves behind, whether it returns or raises. *)
Definition exec (c : call) (w : World) : World :=
  match c with
  | Call_init size => (Memory_init size w).2
  | Call_reset self => (Memory_reset self w).2
  | Call_add self program loader => (Memory_add self program loader w).2
  | Call_read self address => (Memory_read self address w).2
  | Call_write self address value => (Memory_write self address value w).2
  | Call_partition self start end_ => (Memory_partition self start end_ w).2
  end.

Definition exec_all (cs : list call) (w : World) : World :=
  foldl (λ w c, exec c w) w cs.

(** ** Vocabulary of the properties *)

(** [j] is the lowest address of [b] that holds 0. *)
Definition lowest_zero (b : buffer) (j : nat) : Prop :=
  b !! j = Some 0%Z ∧ ∀ k x, k < j → b !! k = Some x → x ≠ 0%Z.

(** The number of slots that hold 0. *)
Definition free_slots (b : buffer) : nat :=
  length (filter (λ x, x = 0%Z) b).

(** What [__init__] establishes and [add_instruction] keeps: the [size]
    attribute is the length of the instruction buffer. *)
Definition Program_wf (p : Program.t) : Prop :=
  Program.size p = Z.of_nat (length (Program.instructions p)).

(** [fills p vs js p']: storing the values [vs] one after the other, each in
    the lowest slot that holds 0 at that moment, visits the slots [js] and
    turns [p] into [p']. *)
Inductive fills : Program.t → list Z → list nat → Program.t → Prop :=
  | fills_nil p : fills p [] [] p
  | fills_cons p v vs j js p' :
      lowest_zero (Program.instructions p) j →
      fills {| Program.size := Program.size p;
               Program.instructions := <[j := v]> (Program.instructions p) |}
            vs js p' →
      fills p (v :: vs) (j :: js) p'.

(** Every [Memory] object refers to a bytearray object of the heap. *)
Definition buffers_allocated (w : World) : Prop :=
  ∀ self o, Memory_objects w !! self = Some o → Memory.memory o < length (heap w).

(** The invariant of the spec: for every [Memory] object, the length of the
    backing buffer is the [size] attribute. *)
Definition Memory_inv (w : World) : Prop :=
  ∀ self o, Memory_objects w !! self = Some o →
    ∃ b, heap w !! Memory.memory o = Some b ∧ Z.of_nat (length b) = Memory.size o.

(** The instructions of [program] end inside the buffer [b] when copied to
    the place [loader] chooses, if it finds one: address 0 for StaticLoader
    when some byte is 0, the lowest zero address for DynamicLoader.  A
    buffer without a zero byte gives no place to copy to, and every program
    fits. *)
Definition fits (loader : Loader) (program : Program.t) (b : buffer) : Prop :=
  match loader with
  | BaseLoader => True
  | StaticLoader => 0%Z ∈ b → length (Program.instructions program) ≤ length b
  | DynamicLoader =>
      ∀ i, lowest_zero b i → i + length (Program.instructions program) ≤ length b
  end.

(** A call whose program, if it loads one, fits in the buffer it is loaded
    into. *)
Definition fitting (c : call) (w : World) : Prop :=
  match c with
  | Call_add self program loader =>
      ∀ o b, Memory_objects w !! self = Some o →
             heap w !! Memory.memory o = Some b →
             fits loader program b
  | _ => True
  end.

(** The bytearray object [d] holds [snap] and is the buffer of no [Memory]
    object. *)
Definition snapshot_kept (d : loc) (snap : buffer) (w : World) : Prop :=
  heap w !! d = Some snap ∧
  ∀ self o, Memory_objects w !! self = Some o → Memory.memory o ≠ d.

(** The records [Pagination.__init__] registers for the strides [starts]:
    one for each stride, in order, the first with the data [d]. *)
Fixpoint page_records (d : loc) (starts : list Z) (page_size size : Z)
    : list Memory.partition_record :=
  match starts with
  | [] => []
  | i :: starts' =>
      {| Memory.start := i; Memory.end_ := Z.min (i + page_size) size; Memory.data := d |}
        :: page_records (S d) starts' page_size size
  end.

(** The object a call is made on; none for a construction. *)
Definition receiver (c : call) : option ref :=
  match c with
  | Call_init _ => None
  | Call_reset self | Call_add self _ _ | Call_read self _
  | Call_write self _ _ | Call_partition self _ _ => Some self
  end.

(** Every [Memory] object has a non-negative [size] and a buffer of at least
    [size] bytes. *)
Definition Memory_covered (w : World) : Prop :=
  ∀ self o, Memory_objects w !! self = Some o →
    (0 ≤ Memory.size o)%Z ∧
    ∃ b, heap w !! Memory.memory o = Some b ∧ (Memory.size o ≤ Z.of_nat (length b))%Z.

(** No two [Memory] objects have the same bytearray object as buffer. *)
Definition buffers_distinct (w : World) : Prop :=
  ∀ self1 self2 o1 o2,
    Memory_objects w !! self1 = Some o1 →
    Memory_objects w !! self2 = Some o2 →
    Memory.memory o1 = Memory.memory o2 → self1 = self2.

Definition World_wf (w : World) : Prop := Memory_covered w ∧ buffers_distinct w.

(** The bytes of the buffer of [self], if [self] is an object. *)
Definition buffer_of (self : ref) (w : World) : option buffer :=
  match Memory_objects w !! self with
  | Some o => heap w !! Memory.memory o
  | None => None
  end.

(** The markers [inspect] writes before the row of address [i]. *)
Definition markers (partitions : list Memory.partition_record) (i : Z) : list line :=
  partitions ≫= λ part,
    (if decide (Memory.start part = i) then [Line_partition_start (Memory.start part)] else [])
    ++ (if decide (Memory.end_ part = i) then [Line_partition_end (Memory.end_ part)] else []).

(** The lines [inspect] writes for the rows of the addresses [starts]. *)
Definition dump (b : buffer) (size : Z) (partitions : list Memory.partition_record)
    (starts : list Z) : list line :=
  starts ≫= λ i,
    markers partitions i ++ [Line_row i (getslice b i (Z.min (i + 16) size))].

(** The bytes of the rows of a dump, row by row. *)
Definition row_contents (out : list line) : list (list Z) :=
  omap (λ l, match l with Line_row _ bytes => Some bytes | _ => None end) out.

(** The script run when the file is executed: the final program, store and
    standard output (without the lines of the other [print] calls). *)
Definition main : result (Program.t * World * list line) :=
  match Program.init 16 with
  | Raise e => Raise e
  | Ok p0 =>
      match Program.add_instructions
              [1; 2; 3; 4; 5; 6; 7; 8; 9; 10; 11; 12; 13; 14; 15; 16]%Z p0 with
      | (Raise e, _) => Raise e
      | (Ok _, p1) =>
          match Memory_init 512 World_init with
          | (Raise e, _) => Raise e
          | (Ok mem, w1) =>
              match Pagination.init mem 64 w1 with
              | (Raise e, _) => Raise e
              | (Ok pg, w2) =>
                  match Pagination.inspect pg w2 [] with
                  | (Raise e, _) => Raise e
                  | (Ok _, out) =>
                      match Memory_add mem p1 StaticLoader w2 with
                      | (Raise e, _) => Raise e
                      | (Ok _, w3) => Ok (p1, w3, out)
                      end
                  end
              end
          end
      end
  end.

(** ** Programs and stores of the examples *)

(** A program of capacity 4 with two slots taken. *)
Definition program_1_0_2 : Program.t :=
  {| Program.size := 4; Program.instructions := [1; 0; 2; 0]%Z |}.

(** The program of three instructions 1, 2, 3: [Program(3)] after
    [add_instruction(1)], [add_instruction(2)], [add_instruction(3)]. *)
Definition program_1_2_3 : Program.t :=
  {| Program.size := 3; Program.instructions := [1; 2; 3]%Z |}.

(** The store after [Memory(2)], and after [Memory(8)], in a fresh
    interpreter: one object, of identity 0. *)
Definition world_memory_2 : World := (Memory_init 2 World_init).2.
Definition world_memory_8 : World := (Memory_init 8 World_init).2.

(** The store after [Memory(8)] and the writes of 7, 8, 9 at the addresses
    2, 3, 4. *)
Definition world_memory_8_written : World :=
  exec_all [Call_write 0 2 7; Call_write 0 3 8; Call_write 0 4 9] world_memory_8.

(** The store after [A = Memory(8)] and [B = Memory(8)] in a fresh
    interpreter: [A] is the object 0 and [B] the object 1. *)
Definition world_two_memories : World :=
  exec_all [Call_init 8; Call_init 8] World_init.

(** The store after [Memory(512)] in a fresh interpreter. *)
Definition world_memory_512 : World := (Memory_init 512 World_init).2.

(** The store after [Memory(20)], a write of 255 at the address 17 and the
    partitions 0..16, 16..20 and 3..5. *)
Definition world_memory_20_partitioned : World :=
  exec_all [Call_init 20; Call_write 0 17 255; Call_partition 0 0 16;
            Call_partition 0 16 20; Call_partition 0 3 5] World_init.

(** The store after [Memory(2)] and the writes of 5 and 6 at the addresses
    0 and 1: no byte of the buffer is 0. *)
Definition world_memory_2_full : World :=
  exec_all [Call_write 0 0 5; Call_write 0 1 6] world_memory_2.

(** ** Tactics *)

Ltac unfold_M :=
  unfold Memory_init, Memory_reset, Memory_add, Memory_read, Memory_write,
    Memory_partition, bind, ret, raise, lift, attrs, deref, alloc,
    new_object, set_attrs, partitions_append in *.

(** ** Zero slots of a buffer *)

Section zero_slots.
Implicit Types (b : buffer) (j k : nat) (v x : Z).

Lemma lowest_zero_lt b j : lowest_zero b j → j < length b.
Proof. intros [H _]. by eapply lookup_lt_Some. Qed.

Lemma lowest_zero_unique b j k : lowest_zero b j → lowest_zero b k → j = k.
Proof.
  intros [Hj Hlj] [Hk Hlk].
  destruct (lt_eq_lt_dec j k) as [[Hlt | ->] | Hlt]; [|done|].
  - by destruct (Hlk j 0%Z Hlt Hj).
  - by destruct (Hlj k 0%Z Hlt Hk).
Qed.

Lemma lowest_zero_here b : lowest_zero (0%Z :: b) 0.
Proof. split; [done | lia]. Qed.

Lemma lowest_zero_later x b j :
  x ≠ 0%Z → lowest_zero b j → lowest_zero (x :: b) (S j).
Proof.
  intros Hx [Hj Hl]. split; [done |].
  intros [| k] y Hk Hy; simplify_eq/=; [done |].
  eapply Hl; [|done]. lia.
Qed.

Lemma lowest_zero_exists b : 0%Z ∈ b → ∃ j, lowest_zero b j.
Proof.
  induction b as [| x b IH]; intros Hin; [by apply elem_of_nil in Hin |].
  destruct (decide (x = 0%Z)) as [-> | Hx].
  - exists 0. apply lowest_zero_here.
  - apply elem_of_cons in Hin as [? | Hin]; [done |].
    destruct (IH Hin) as [j Hj]. exists (S j). by apply lowest_zero_later.
Qed.

Lemma free_slots_cons x b :
  free_slots (x :: b) = if decide (x = 0%Z) then S (free_slots b) else free_slots b.
Proof. unfold free_slots. rewrite filter_cons. by case_decide. Qed.

Lemma free_slots_0 b : free_slots b = 0 ↔ 0%Z ∉ b.
Proof.
  induction b as [| x b IH]; [split; [intros _; apply not_elem_of_nil | done] |].
  rewrite free_slots_cons, not_elem_of_cons.
  case_decide; [split; [lia | intros [? _]; congruence] | rewrite IH; intuition congruence].
Qed.

Lemma free_slots_pos b : 0 < free_slots b → 0%Z ∈ b.
Proof.
  intros H. destruct (decide (0%Z ∈ b)) as [| Hn]; [done |].
  apply free_slots_0 in Hn. lia.
Qed.

(** Storing a non-zero value in a slot that holds 0 uses up one slot. *)
Lemma free_slots_insert b j v :
  b !! j = Some 0%Z → v ≠ 0%Z → S (free_slots (<[j := v]> b)) = free_slots b.
Proof.
  revert j. induction b as [| x b IH]; intros [| j] Hj Hv; simplify_eq/=.
  - rewrite !free_slots_cons. by repeat case_decide.
  - rewrite !free_slots_cons. case_decide; [f_equal |]; by apply IH.
Qed.

(** Storing 0 in a slot that holds 0 changes nothing. *)
Lemma insert_zero_id b j : b !! j = Some 0%Z → <[j := 0%Z]> b = b.
Proof. apply list_insert_id. Qed.

End zero_slots.

(** ** Program *)

Section program.
Implicit Types (p : Program.t) (v : Z) (n i j : nat).

Lemma Program_init_wf size p : Program.init size = Ok p → Program_wf p.
Proof.
  unfold Program.init, bytearray, Program_wf. case_decide; intros; simplify_eq/=.
  rewrite length_replicate. lia.
Qed.

(** The loop stops at the first slot that holds 0. *)
Lemma add_instruction_loop_found n i j v p :
  i ≤ j < i + n →
  Program.instructions p !! j = Some 0%Z →
  (∀ k x, i ≤ k < j → Program.instructions p !! k = Some x → x ≠ 0%Z) →
  Program.add_instruction_loop n i v p =
    if decide (is_byte v) then
      (Ok (Z.of_nat j),
       {| Program.size := Program.size p;
          Program.instructions := <[j := v]> (Program.instructions p) |})
    else (Raise ValueError, p).
Proof.
  revert i. induction n as [| n IH]; intros i Hij Hj Hl; [lia |].
  destruct (decide (i = j)) as [-> | Hne]; simpl.
  - rewrite Hj. by rewrite decide_True.
  - destruct (Program.instructions p !! i) as [x |] eqn:Hi.
    + rewrite decide_False by (eapply Hl; [|done]; lia).
      apply IH; [lia | done |]. intros k y ?. apply Hl. lia.
    + apply lookup_ge_None in Hi. apply lookup_lt_Some in Hj. lia.
Qed.

(** The loop runs out when every slot it visits is taken. *)
Lemma add_instruction_loop_full n i v p :
  i + n ≤ length (Program.instructions p) →
  (∀ k x, i ≤ k → Program.instructions p !! k = Some x → x ≠ 0%Z) →
  Program.add_instruction_loop n i v p = (Raise MemoryError, p).
Proof.
  revert i. induction n as [| n IH]; intros i Hlen Hl; [done |]. simpl.
  destruct (lookup_lt_is_Some_2 (Program.instructions p) i) as [x Hx]; [lia |].
  rewrite Hx, decide_False by (eapply (Hl i); [lia | done]).
  apply IH; [lia |]. intros k y ?. apply Hl. lia.
Qed.

Lemma add_instruction_found v p j :
  Program_wf p → lowest_zero (Program.instructions p) j →
  Program.add_instruction v p =
    if decide (is_byte v) then
      (Ok (Z.of_nat j),
       {| Program.size := Program.size p;
          Program.instructions := <[j := v]> (Program.instructions p) |})
    else (Raise ValueError, p).
Proof.
  intros Hwf Hj. pose proof (lowest_zero_lt _ _ Hj) as Hlt. destruct Hj as [Hj Hl].
  unfold Program.add_instruction. apply add_instruction_loop_found; [| done |].
  - rewrite Hwf. lia.
  - intros k x ?. apply Hl. lia.
Qed.

Lemma add_instruction_full v p :
  Program_wf p → 0%Z ∉ Program.instructions p →
  Program.add_instruction v p = (Raise MemoryError, p).
Proof.
  intros Hwf Hfull. unfold Program.add_instruction.
  apply add_instruction_loop_full; [rewrite Hwf; lia |].
  intros k x _ Hk ->. apply Hfull. by eapply list_elem_of_lookup_2.
Qed.

Lemma add_instruction_wf v p r p' :
  Program_wf p → Program.add_instruction v p = (r, p') → Program_wf p'.
Proof.
  intros Hwf. destruct (decide (0%Z ∈ Program.instructions p)) as [Hin | Hfull].
  - destruct (lowest_zero_exists _ Hin) as [j Hj].
    rewrite (add_instruction_found _ _ j) by done.
    case_decide; intros; simplify_eq; [| done].
    unfold Program_wf in *. simpl. by rewrite length_insert.
  - rewrite add_instruction_full by done. by intros; simplify_eq.
Qed.

End program.

(** *** Construction (C9) *)

(** C9, as the claim states it, at capacity 0: the claim says construction
    fails; the constructor returns a program whose instruction buffer is
    empty. *)
Lemma Program_init_zero_capacity_succeeds :
  Program.init 0 = Ok {| Program.size := 0; Program.instructions := [] |} ∧
  ¬ (∃ e, Program.init 0 = Raise e).
Proof. split; [reflexivity | intros [e He]; discriminate He]. Qed.

(** C9, amended: for every capacity n < 0 construction fails (the
    [ValueError] of [bytearray] for a negative count); for every capacity
    n >= 0, zero included, construction succeeds and yields an instruction
    buffer of length n with every slot equal to 0. *)
Theorem Program_init_capacity (n : Z) :
  ((n < 0)%Z → Program.init n = Raise ValueError) ∧
  ((0 ≤ n)%Z →
     ∃ p, Program.init n = Ok p ∧
          Program.size p = n ∧
          Z.of_nat (length (Program.instructions p)) = n ∧
          Forall (λ x, x = 0%Z) (Program.instructions p)).
Proof.
  unfold Program.init, bytearray. split; intros Hn.
  - by rewrite decide_True.
  - rewrite decide_False by lia. eexists. split; [done |]. simpl.
    rewrite length_replicate. split_and!; [done | lia |].
    apply Forall_replicate. done.
Qed.

Lemma Program_init_capacity_witness :
  ∃ p, Program.init 5 = Ok p ∧
       Program.size p = 5%Z ∧
       Z.of_nat (length (Program.instructions p)) = 5%Z ∧
       Forall (λ x, x = 0%Z) (Program.instructions p).
Proof. apply (proj2 (Program_init_capacity 5)). lia. Defined.

(** *** Filling the free slots (C6) *)

Lemma fills_length p vs js p' : fills p vs js p' → length js = length vs.
Proof. induction 1; simpl; congruence. Qed.

Lemma add_instructions_fills (vs : list Z) : ∀ p,
  Program_wf p →
  Forall (λ v, 0 < v < 256)%Z vs →
  length vs = free_slots (Program.instructions p) →
  ∃ js p',
    Program.add_instructions vs p = (Ok (Z.of_nat <$> js), p') ∧
    fills p vs js p' ∧
    Program_wf p' ∧
    0%Z ∉ Program.instructions p'.
Proof.
  induction vs as [| v vs IH]; intros p Hwf Hvs Hlen.
  - exists [], p. split_and!; [done | constructor | done |].
    by apply free_slots_0.
  - apply Forall_cons in Hvs as [Hv Hvs].
    destruct (lowest_zero_exists (Program.instructions p)) as [j Hj].
    { apply free_slots_pos. simpl in Hlen. lia. }
    pose proof (add_instruction_found v p j Hwf Hj) as Hadd.
    rewrite decide_True in Hadd by (unfold is_byte; lia).
    pose proof (add_instruction_wf _ _ _ _ Hwf Hadd) as Hwf'.
    destruct (IH _ Hwf' Hvs) as (js & p' & Hrun & Hfills & Hwf'' & Hfull).
    { simpl in *. destruct Hj as [Hj _].
      pose proof (free_slots_insert _ j v Hj). lia. }
    exists (j :: js), p'. split_and!; [| by econstructor | done | done].
    simpl. unfold bind at 1. rewrite Hadd. unfold bind at 1. by rewrite Hrun.
Qed.

(** C6: on a program with exactly k slots holding 0, k calls of
    add_instruction with non-zero byte values all succeed, each one writing
    its value into the lowest slot holding 0 at that moment and returning
    that slot's address, and one more call fails with [MemoryError] (the
    spec's OutOfCapacity). *)
Theorem add_instruction_succeeds_exactly_k_times (p : Program.t) (k : nat) (vs : list Z) :
  Program_wf p →
  free_slots (Program.instructions p) = k →
  length vs = k →
  Forall (λ v, 0 < v < 256)%Z vs →
  ∃ js p',
    Program.add_instructions vs p = (Ok (Z.of_nat <$> js), p') ∧
    length js = k ∧
    fills p vs js p' ∧
    ∀ v, Program.add_instruction v p' = (Raise MemoryError, p').
Proof.
  intros Hwf Hk Hlen Hvs.
  destruct (add_instructions_fills vs p Hwf Hvs) as (js & p' & Hrun & Hfills & Hwf' & Hfull);
    [congruence |].
  exists js, p'. split_and!; [done | | done |].
  - apply fills_length in Hfills. congruence.
  - intros v. by apply add_instruction_full.
Qed.

Lemma add_instruction_succeeds_exactly_k_times_witness :
  ∃ js p',
    Program.add_instructions [7; 9]%Z program_1_0_2 = (Ok (Z.of_nat <$> js), p') ∧
    length js = 2 ∧
    fills program_1_0_2 [7; 9]%Z js p' ∧
    ∀ v, Program.add_instruction v p' = (Raise MemoryError, p').
Proof.
  apply (add_instruction_succeeds_exactly_k_times program_1_0_2 2 [7; 9]%Z).
  - reflexivity.
  - reflexivity.
  - reflexivity.
  - repeat constructor.
Defined.

(** *** Storing the value 0 (C10) *)

(** C10: while a slot holds 0, add_instruction with the value 0 succeeds,
    returns the address of the lowest slot holding 0 and leaves the program
    unchanged; so any number of such calls in a row return that same address
    and none of them fails. *)
Theorem add_instruction_zero_consumes_nothing (p : Program.t) :
  Program_wf p →
  0%Z ∈ Program.instructions p →
  ∃ j, lowest_zero (Program.instructions p) j ∧
       Program.add_instruction 0 p = (Ok (Z.of_nat j), p) ∧
       ∀ n, Program.add_instructions (replicate n 0%Z) p =
              (Ok (replicate n (Z.of_nat j)), p).
Proof.
  intros Hwf Hin. destruct (lowest_zero_exists _ Hin) as [j Hj]. exists j.
  assert (Program.add_instruction 0 p = (Ok (Z.of_nat j), p)) as Hadd.
  { rewrite (add_instruction_found 0 p j Hwf Hj).
    rewrite decide_True by (unfold is_byte; lia).
    destruct Hj as [Hj _]. rewrite insert_zero_id by done. by destruct p. }
  split_and!; [done | done |].
  induction n as [| n IH]; [done |].
  simpl. unfold bind at 1. rewrite Hadd. unfold bind at 1. by rewrite IH.
Qed.

Lemma add_instruction_zero_consumes_nothing_witness :
  ∃ j, lowest_zero (Program.instructions program_1_0_2) j ∧
       Program.add_instruction 0 program_1_0_2 = (Ok (Z.of_nat j), program_1_0_2) ∧
       ∀ n, Program.add_instructions (replicate n 0%Z) program_1_0_2 =
              (Ok (replicate n (Z.of_nat j)), program_1_0_2).
Proof.
  apply (add_instruction_zero_consumes_nothing program_1_0_2).
  - reflexivity.
  - simpl. apply list_elem_of_In. simpl. auto.
Defined.

(** ** Slices *)

Section slices.
Implicit Types (b src : buffer) (i n : nat).

Lemma slice_bound_nat len i : slice_bound len (Z.of_nat i) = i `min` len.
Proof. unfold slice_bound. rewrite decide_False by lia. by rewrite Nat2Z.id. Qed.

Lemma take_min_length b i : take (i `min` length b) b = take i b.
Proof.
  destruct (decide (i ≤ length b)).
  - by rewrite Nat.min_l.
  - rewrite Nat.min_r by lia. by rewrite !take_ge by lia.
Qed.

(** Assignment to the slice [b[i : i + n]], the bounds being counted from
    the start of [b]. *)
Lemma setslice_nat b i n src :
  setslice b (Z.of_nat i) (Z.of_nat i + Z.of_nat n) src =
    take i b ++ src ++ drop (i + n) b.
Proof.
  unfold setslice. rewrite <- Nat2Z.inj_add, !slice_bound_nat, take_min_length.
  do 2 f_equal. destruct (decide (i + n ≤ length b)).
  - f_equal. lia.
  - by rewrite !drop_ge by lia.
Qed.

Lemma setslice_0 b n src :
  setslice b 0 (Z.of_nat n) src = src ++ drop n b.
Proof. apply (setslice_nat b 0 n src). Qed.

(** Reading the slice [b[s : e]] for [0 <= s <= e]. *)
Lemma getslice_nat b (s e : Z) :
  (0 ≤ s ≤ e)%Z →
  getslice b s e = take (Z.to_nat e - Z.to_nat s) (drop (Z.to_nat s) b).
Proof.
  intros Hse. unfold getslice, slice_bound. rewrite !decide_False by lia.
  destruct (decide (Z.to_nat s ≤ length b)).
  - rewrite (Nat.min_l (Z.to_nat s)) by lia.
    destruct (decide (Z.to_nat e ≤ length b)).
    + by rewrite Nat.min_l by lia.
    + rewrite Nat.min_r by lia. rewrite !take_ge; [done | |]; rewrite length_drop; lia.
  - by rewrite !drop_ge, !take_nil by lia.
Qed.

End slices.

(** ** Loaders *)

Section loaders.
Implicit Types (program : Program.t) (memory rest : buffer) (n i j : nat).

Lemma StaticLoader_load_loop_found rest program memory :
  0%Z ∈ rest →
  StaticLoader.load_loop rest program memory =
    (Ok tt, Program.instructions program
              ++ drop (length (Program.instructions program)) memory).
Proof.
  induction rest as [| x rest IH]; intros Hin; [by apply elem_of_nil in Hin |].
  simpl. case_decide.
  - by rewrite setslice_0.
  - apply IH. apply elem_of_cons in Hin as [? | ?]; [congruence | done].
Qed.

Lemma StaticLoader_load_loop_full rest program memory :
  0%Z ∉ rest →
  StaticLoader.load_loop rest program memory = (Raise MemoryError, memory).
Proof.
  induction rest as [| x rest IH]; intros Hfull; [done |].
  apply not_elem_of_cons in Hfull as [? ?]. simpl.
  rewrite decide_False by congruence. by apply IH.
Qed.

Lemma DynamicLoader_load_loop_found n i j program memory :
  i ≤ j < i + n →
  memory !! j = Some 0%Z →
  (∀ k x, i ≤ k < j → memory !! k = Some x → x ≠ 0%Z) →
  DynamicLoader.load_loop n i program memory =
    (Ok tt, take j memory ++ Program.instructions program
              ++ drop (j + length (Program.instructions program)) memory).
Proof.
  revert i. induction n as [| n IH]; intros i Hij Hj Hl; [lia |].
  destruct (decide (i = j)) as [-> | Hne]; simpl.
  - rewrite Hj, decide_True by done. by rewrite setslice_nat.
  - destruct (memory !! i) as [x |] eqn:Hi.
    + rewrite decide_False by (eapply Hl; [|done]; lia).
      apply IH; [lia | done |]. intros k y ?. apply Hl. lia.
    + apply lookup_ge_None in Hi. apply lookup_lt_Some in Hj. lia.
Qed.

Lemma DynamicLoader_load_loop_full n i program memory :
  i + n ≤ length memory →
  (∀ k x, i ≤ k → memory !! k = Some x → x ≠ 0%Z) →
  DynamicLoader.load_loop n i program memory = (Raise MemoryError, memory).
Proof.
  revert i. induction n as [| n IH]; intros i Hlen Hl; [done |]. simpl.
  destruct (lookup_lt_is_Some_2 memory i) as [x Hx]; [lia |].
  rewrite Hx, decide_False by (eapply (Hl i); [lia | done]).
  apply IH; [lia |]. intros k y ?. apply Hl. lia.
Qed.

(** The two loaders, by cases on the target buffer. *)
Lemma StaticLoader_load_found program memory :
  0%Z ∈ memory →
  StaticLoader.load program memory =
    (Ok tt, Program.instructions program
              ++ drop (length (Program.instructions program)) memory).
Proof. apply StaticLoader_load_loop_found. Qed.

Lemma StaticLoader_load_full program memory :
  0%Z ∉ memory → StaticLoader.load program memory = (Raise MemoryError, memory).
Proof. apply StaticLoader_load_loop_full. Qed.

Lemma DynamicLoader_load_found program memory j :
  lowest_zero memory j →
  DynamicLoader.load program memory =
    (Ok tt, take j memory ++ Program.instructions program
              ++ drop (j + length (Program.instructions program)) memory).
Proof.
  intros Hj. pose proof (lowest_zero_lt _ _ Hj). destruct Hj as [Hj Hl].
  apply DynamicLoader_load_loop_found; [lia | done |].
  intros k x ?. apply Hl. lia.
Qed.

Lemma DynamicLoader_load_full program memory :
  0%Z ∉ memory → DynamicLoader.load program memory = (Raise MemoryError, memory).
Proof.
  intros Hfull. apply DynamicLoader_load_loop_full; [lia |].
  intros k x _ Hk ->. apply Hfull. by eapply list_elem_of_lookup_2.
Qed.

(** A load that raises leaves the target buffer as it was. *)
Lemma Loader_load_raise loader program memory e memory' :
  Loader_load loader program memory = (Raise e, memory') → memory' = memory.
Proof.
  destruct loader; simpl; [by intros [= _ <-] | |];
    (destruct (decide (0%Z ∈ memory)) as [Hin | Hfull]).
  - by rewrite StaticLoader_load_found.
  - rewrite StaticLoader_load_full by done. by intros [= _ <-].
  - destruct (lowest_zero_exists _ Hin) as [j Hj].
    by rewrite (DynamicLoader_load_found _ _ j).
  - rewrite DynamicLoader_load_full by done. by intros [= _ <-].
Qed.

End loaders.

Example program_1_2_3_built :
  ∃ p, Program.init 3 = Ok p ∧
       Program.add_instructions [1; 2; 3]%Z p = (Ok [0; 1; 2]%Z, program_1_2_3).
Proof. eexists. split; reflexivity. Qed.

(** *** StaticLoader (C5) *)

(** C5: for a program that fits in the target buffer, StaticLoader.load
    copies the whole instruction buffer to address 0 as soon as some byte of
    the target is 0, wherever that byte is, and leaves the bytes behind the
    copy as they were; loading [1,2,3] into eight zero bytes gives
    [1,2,3,0,0,0,0,0]; with no zero byte the load fails with [MemoryError]
    (the spec's MemoryFull). *)
Theorem StaticLoader_copies_to_address_0 :
  (∀ (program : Program.t) (memory : buffer),
     length (Program.instructions program) ≤ length memory →
     0%Z ∈ memory →
     ∃ memory',
       StaticLoader.load program memory = (Ok tt, memory') ∧
       memory' = Program.instructions program
                   ++ drop (length (Program.instructions program)) memory ∧
       length memory' = length memory ∧
       (∀ k, k < length (Program.instructions program) →
             memory' !! k = Program.instructions program !! k) ∧
       (∀ k, length (Program.instructions program) ≤ k →
             memory' !! k = memory !! k)) ∧
  StaticLoader.load program_1_2_3 (replicate 8 0%Z)
    = (Ok tt, [1; 2; 3; 0; 0; 0; 0; 0]%Z) ∧
  (∀ (program : Program.t) (memory : buffer),
     0%Z ∉ memory →
     StaticLoader.load program memory = (Raise MemoryError, memory)).
Proof.
  split_and!; [| reflexivity | apply StaticLoader_load_full].
  intros program memory Hfit Hin. eexists. split; [by apply StaticLoader_load_found |].
  split_and!; [done | | |].
  - rewrite length_app, length_drop. lia.
  - intros k Hk. by rewrite lookup_app_l.
  - intros k Hk. rewrite lookup_app_r by done. rewrite lookup_drop. f_equal. lia.
Qed.

Lemma StaticLoader_copies_to_address_0_witness :
  ∃ memory',
    StaticLoader.load program_1_2_3 [9; 9; 9; 0; 9]%Z = (Ok tt, memory') ∧
    memory' = [1; 2; 3; 0; 9]%Z ∧
    length memory' = 5 ∧
    (∀ k, k < 3 → memory' !! k = [1; 2; 3]%Z !! k) ∧
    (∀ k, 3 ≤ k → memory' !! k = [9; 9; 9; 0; 9]%Z !! k).
Proof.
  apply (proj1 StaticLoader_copies_to_address_0 program_1_2_3 [9; 9; 9; 0; 9]%Z).
  - simpl. lia.
  - apply list_elem_of_In. simpl. tauto.
Defined.

(** *** DynamicLoader (C8) *)

(** C8: for a program that fits in the target buffer, DynamicLoader.load
    copies the whole instruction buffer to the lowest address i that holds
    0, and the bytes below i stay as they were; with no zero byte in the
    target, DynamicLoader.load and StaticLoader.load both fail with
    [MemoryError] (the spec's MemoryFull). *)
Theorem DynamicLoader_first_fit :
  (∀ (program : Program.t) (memory : buffer),
     length (Program.instructions program) ≤ length memory →
     0%Z ∈ memory →
     ∃ i memory',
       lowest_zero memory i ∧
       DynamicLoader.load program memory = (Ok tt, memory') ∧
       memory' = take i memory ++ Program.instructions program
                   ++ drop (i + length (Program.instructions program)) memory ∧
       (∀ k, k < i → memory' !! k = memory !! k) ∧
       (∀ k, k < length (Program.instructions program) →
             memory' !! (i + k) = Program.instructions program !! k)) ∧
  (∀ (program : Program.t) (memory : buffer),
     0%Z ∉ memory →
     DynamicLoader.load program memory = (Raise MemoryError, memory) ∧
     StaticLoader.load program memory = (Raise MemoryError, memory)).
Proof.
  split.
  - intros program memory _ Hin. destruct (lowest_zero_exists _ Hin) as [i Hi].
    pose proof (lowest_zero_lt _ _ Hi) as Hlt.
    exists i. eexists. split_and!; [done | by apply DynamicLoader_load_found | done | |].
    + intros k Hk. rewrite lookup_app_l by (rewrite length_take; lia).
      by rewrite lookup_take_lt.
    + intros k Hk. rewrite lookup_app_r by (rewrite length_take; lia).
      rewrite length_take, Nat.min_l by lia.
      rewrite lookup_app_l by lia. f_equal. lia.
  - intros program memory Hfull.
    by rewrite DynamicLoader_load_full, StaticLoader_load_full.
Qed.

Lemma DynamicLoader_first_fit_witness :
  ∃ i memory',
    lowest_zero [9; 9; 0; 0; 0; 9]%Z i ∧
    DynamicLoader.load program_1_2_3 [9; 9; 0; 0; 0; 9]%Z = (Ok tt, memory') ∧
    memory' = take i [9; 9; 0; 0; 0; 9]%Z ++ [1; 2; 3]%Z
                ++ drop (i + 3) [9; 9; 0; 0; 0; 9]%Z ∧
    (∀ k, k < i → memory' !! k = [9; 9; 0; 0; 0; 9]%Z !! k) ∧
    (∀ k, k < 3 → memory' !! (i + k) = [1; 2; 3]%Z !! k).
Proof.
  apply (proj1 DynamicLoader_first_fit program_1_2_3 [9; 9; 0; 0; 0; 9]%Z).
  - simpl. lia.
  - apply list_elem_of_In. simpl. tauto.
Defined.

Example DynamicLoader_first_fit_run :
  DynamicLoader.load program_1_2_3 [9; 9; 0; 0; 0; 9]%Z = (Ok tt, [9; 9; 1; 2; 3; 9]%Z) ∧
  DynamicLoader.load program_1_2_3 (replicate 8 0%Z) = (Ok tt, [1; 2; 3; 0; 0; 0; 0; 0]%Z).
Proof. split; reflexivity. Qed.

(** *** Programs that do not fit, and empty programs (C1) *)

(** C1 fails on the code: neither loader compares the length of the
    instructions with the room left in the target, and the slice assignment
    resizes the bytearray.  At the program [1,2,3] and the target buffer
    [0,0] the three instructions overflow the two bytes of the target from
    address 0; the claim says both loads fail with the buffer untouched, and
    both loads return normally and leave a buffer of three bytes. *)
Lemma Loader_overflow_resizes_target :
  length [0; 0]%Z < 0 + length (Program.instructions program_1_2_3) ∧
  lowest_zero [0; 0]%Z 0 ∧
  StaticLoader.load program_1_2_3 [0; 0]%Z = (Ok tt, [1; 2; 3]%Z) ∧
  DynamicLoader.load program_1_2_3 [0; 0]%Z = (Ok tt, [1; 2; 3]%Z) ∧
  StaticLoader.load program_1_2_3 [0; 0]%Z ≠ (Raise MemoryError, [0; 0]%Z) ∧
  DynamicLoader.load program_1_2_3 [0; 0]%Z ≠ (Raise MemoryError, [0; 0]%Z).
Proof.
  split_and!; [simpl; lia | apply lowest_zero_here | reflexivity | reflexivity
              | discriminate | discriminate].
Qed.

(** The extent of the missing check of C1, and the part of C1 the code
    keeps.  The only failure of a load is [MemoryError] on a target without a
    zero byte, which writes nothing.  On a target with a zero byte, a program
    that overflows past its end from the insertion point (address 0 for
    StaticLoader, the lowest zero address i for DynamicLoader) is not
    refused: the load returns and the bytearray has been resized to the bytes
    below the insertion point followed by the whole instruction buffer.  An
    empty instruction buffer leaves the target unchanged, as C1 says. *)
Theorem Loader_load_overflow_and_empty (program : Program.t) (memory : buffer) :
  (0%Z ∈ memory →
   length memory < length (Program.instructions program) →
   StaticLoader.load program memory = (Ok tt, Program.instructions program)) ∧
  (∀ i, lowest_zero memory i →
        length memory < i + length (Program.instructions program) →
        ∃ memory',
          DynamicLoader.load program memory = (Ok tt, memory') ∧
          memory' = take i memory ++ Program.instructions program ∧
          length memory' = i + length (Program.instructions program)) ∧
  (0%Z ∉ memory →
   StaticLoader.load program memory = (Raise MemoryError, memory) ∧
   DynamicLoader.load program memory = (Raise MemoryError, memory)) ∧
  (Program.instructions program = [] →
   ∀ loader r memory',
     Loader_load loader program memory = (r, memory') →
     memory' = memory ∧
     (loader ≠ BaseLoader → 0%Z ∈ memory → r = Ok tt)).
Proof.
  split_and!.
  - intros Hin Hover. rewrite StaticLoader_load_found by done.
    by rewrite drop_ge, app_nil_r by lia.
  - intros i Hi Hover. pose proof (lowest_zero_lt _ _ Hi).
    eexists. split; [by apply DynamicLoader_load_found |].
    rewrite drop_ge, app_nil_r by lia. split; [done |].
    rewrite length_app, length_take. lia.
  - intros Hfull. by rewrite StaticLoader_load_full, DynamicLoader_load_full.
  - intros Hempty loader r memory'.
    destruct loader; simpl; [by intros [= <- <-] | |];
      (destruct (decide (0%Z ∈ memory)) as [Hin | Hfull]).
    + rewrite StaticLoader_load_found, Hempty by done. simpl. rewrite drop_0.
      by intros [= <- <-].
    + rewrite StaticLoader_load_full by done. by intros [= <- <-].
    + destruct (lowest_zero_exists _ Hin) as [j Hj].
      rewrite (DynamicLoader_load_found _ _ j), Hempty by done. simpl.
      rewrite Nat.add_0_r, take_drop. by intros [= <- <-].
    + rewrite DynamicLoader_load_full by done. by intros [= <- <-].
Qed.

Lemma Loader_load_overflow_and_empty_witness :
  ∃ memory',
    DynamicLoader.load program_1_2_3 [9; 9; 0; 0]%Z = (Ok tt, memory') ∧
    memory' = take 2 [9; 9; 0; 0]%Z ++ [1; 2; 3]%Z ∧
    length memory' = 2 + 3.
Proof.
  apply (proj1 (proj2 (Loader_load_overflow_and_empty program_1_2_3 [9; 9; 0; 0]%Z)) 2).
  - split; [reflexivity |].
    intros [| [| k]] x Hk; [| | lia]; simpl; intros [= <-]; lia.
  - simpl. lia.
Defined.

(** ** Frame lemmas of the store *)

Section store.
Implicit Types (w : World) (b : buffer) (l d : loc) (self : ref) (o : Memory.t).

Lemma on_buffer_run {A} l (m : M buffer A) w b :
  heap w !! l = Some b →
  on_buffer l m w =
    ((m b).1, {| heap := <[l := (m b).2]> (heap w);
                 Memory_partitions := Memory_partitions w;
                 Memory_objects := Memory_objects w |}).
Proof. unfold on_buffer. intros ->. by destruct (m b). Qed.

Lemma on_buffer_dangling {A} l (m : M buffer A) w :
  heap w !! l = None → on_buffer l m w = (Raise SystemError, w).
Proof. unfold on_buffer. by intros ->. Qed.

Lemma setitem_length address value b : length (setitem address value b).2 = length b.
Proof. unfold setitem. destruct (b !! _); simpl; [by rewrite length_insert | done]. Qed.

Lemma bytearray_length n b : bytearray n = Ok b → Z.of_nat (length b) = n.
Proof.
  unfold bytearray. case_decide; intros [= <-]. rewrite length_replicate. lia.
Qed.

(** A load keeps the length of the buffer when the program fits. *)
Lemma Loader_load_length loader program b :
  fits loader program b → length (Loader_load loader program b).2 = length b.
Proof.
  destruct loader; simpl; intros Hfit; [done | |];
    (destruct (decide (0%Z ∈ b)) as [Hin | Hfull]).
  - pose proof (Hfit Hin). rewrite StaticLoader_load_found by done. simpl.
    rewrite length_app, length_drop. lia.
  - by rewrite StaticLoader_load_full.
  - destruct (lowest_zero_exists _ Hin) as [j Hj]. pose proof (Hfit j Hj).
    rewrite (DynamicLoader_load_found _ _ j) by done. simpl.
    rewrite !length_app, length_take, length_drop. lia.
  - by rewrite DynamicLoader_load_full.
Qed.

Lemma Memory_inv_allocated w : Memory_inv w → buffers_allocated w.
Proof.
  intros Hinv self o Ho. destruct (Hinv self o Ho) as (b & Hb & _).
  by eapply lookup_lt_Some.
Qed.

(** The invariant under the elementary changes of the store. *)
Lemma Memory_inv_alloc w b ps :
  Memory_inv w →
  Memory_inv {| heap := heap w ++ [b]; Memory_partitions := ps;
                Memory_objects := Memory_objects w |}.
Proof.
  intros Hinv self o Ho. destruct (Hinv self o Ho) as (b' & Hb' & Hlen).
  exists b'. split; [by apply lookup_app_l_Some | done].
Qed.

Lemma Memory_inv_store w l b b' :
  Memory_inv w → heap w !! l = Some b → length b' = length b →
  Memory_inv {| heap := <[l := b']> (heap w);
                Memory_partitions := Memory_partitions w;
                Memory_objects := Memory_objects w |}.
Proof.
  intros Hinv Hb Hlen self o Ho. destruct (Hinv self o Ho) as (b'' & Hb'' & Hlen'').
  simpl. destruct (decide (Memory.memory o = l)) as [Heq | Hne].
  - exists b'. rewrite Heq, Hb in *. injection Hb'' as <-.
    split; [apply list_lookup_insert_eq; by eapply lookup_lt_Some | by rewrite Hlen].
  - exists b''. by rewrite list_lookup_insert_ne.
Qed.

Lemma Memory_inv_bind w b size (f : list Memory.t → list Memory.t) :
  Memory_inv w →
  Z.of_nat (length b) = size →
  (∀ self' o', f (Memory_objects w) !! self' = Some o' →
     o' = {| Memory.size := size; Memory.memory := length (heap w) |} ∨
     Memory_objects w !! self' = Some o') →
  Memory_inv {| heap := heap w ++ [b];
                Memory_partitions := Memory_partitions w;
                Memory_objects := f (Memory_objects w) |}.
Proof.
  intros Hinv Hlen Hf self' o' Ho'. simpl in *.
  destruct (Hf self' o' Ho') as [-> | Hold]; simpl.
  - exists b. split; [by apply list_lookup_middle | done].
  - destruct (Hinv self' o' Hold) as (b' & Hb' & Hlen').
    exists b'. split; [by apply lookup_app_l_Some | done].
Qed.

(** The invariant of the spec is kept by a call that fits. *)
Lemma exec_Memory_inv c w : Memory_inv w → fitting c w → Memory_inv (exec c w).
Proof.
  intros Hinv Hfit. destruct c; simpl in *; unfold_M.
  - (* Memory(size) *)
    destruct (bytearray size) as [b |] eqn:Hb; simpl; [| done].
    apply (Memory_inv_bind w b size
             (λ os, os ++ [{| Memory.size := size; Memory.memory := length (heap w) |}]));
      [done | by apply bytearray_length |].
    intros self' o' [Ho' | [_ Ho']]%lookup_app_Some; [by right | left].
    by apply list_lookup_singleton_Some in Ho' as [_ <-].
  - (* reset *)
    destruct (Memory_objects w !! self) as [o |] eqn:Ho; simpl; [| done].
    destruct (bytearray (Memory.size o)) as [b |] eqn:Hb; simpl; [| done].
    apply (Memory_inv_bind w b (Memory.size o)
             (λ os, <[self := {| Memory.size := Memory.size o;
                                 Memory.memory := length (heap w) |}]> os));
      [done | by apply bytearray_length |].
    intros self' o' [(_ & <- & _) | [_ Ho']]%list_lookup_insert_Some; [by left | by right].
  - (* add *)
    destruct (Memory_objects w !! self) as [o |] eqn:Ho; simpl; [| done].
    destruct (heap w !! Memory.memory o) as [b |] eqn:Hb;
      [| by rewrite on_buffer_dangling].
    rewrite (on_buffer_run _ _ _ b) by done. simpl.
    eapply Memory_inv_store; [done | done |]. apply Loader_load_length. by eapply Hfit.
  - (* read *)
    destruct (Memory_objects w !! self) as [o |] eqn:Ho; simpl; [| done].
    case_decide; simpl; [| done].
    by destruct (heap w !! Memory.memory o) as [b |] eqn:Hb.
  - (* write *)
    destruct (Memory_objects w !! self) as [o |] eqn:Ho; simpl; [| done].
    repeat (case_decide; simpl; [| done]).
    destruct (heap w !! Memory.memory o) as [b |] eqn:Hb;
      [| by rewrite on_buffer_dangling].
    rewrite (on_buffer_run _ _ _ b) by done. simpl.
    eapply Memory_inv_store; [done | done |]. apply setitem_length.
  - (* partition *)
    destruct (Memory_objects w !! self) as [o |] eqn:Ho; simpl; [| done].
    case_decide; simpl; [| done].
    destruct (heap w !! Memory.memory o) as [b |] eqn:Hb; simpl; [| done].
    by apply Memory_inv_alloc.
Qed.

End store.

(** ** The length invariant of Memory (C4) *)

Lemma Memory_inv_init : Memory_inv World_init.
Proof. intros self o Ho. simpl in Ho. by rewrite lookup_nil in Ho. Qed.

(** C4 fails on the code: [add] hands [self.memory] to a loader that does
    not check the room left, while [read], [write] and [partition] refuse
    what lies beyond [size] and [reset] allocates exactly [size] bytes.  At
    [Memory(2)] and the program [1,2,3] added with StaticLoader, the
    invariant holds before the call; after it the buffer of the instance
    holds three bytes while its size is still 2. *)
Lemma Memory_add_outgrows_size :
  Memory_init 2 World_init = (Ok 0, world_memory_2) ∧
  Memory_inv world_memory_2 ∧
  ∃ w',
    Memory_add 0 program_1_2_3 StaticLoader world_memory_2 = (Ok tt, w') ∧
    Memory_objects w' !! 0 = Some {| Memory.size := 2; Memory.memory := 0 |} ∧
    heap w' !! 0 = Some [1; 2; 3]%Z ∧
    ¬ Memory_inv w'.
Proof.
  split_and!; [reflexivity | |].
  - apply (exec_Memory_inv (Call_init 2) World_init); [apply Memory_inv_init | done].
  - eexists. split_and!; [reflexivity | reflexivity | reflexivity |].
    intros Hinv. destruct (Hinv 0 _ eq_refl) as (b & Hb & Hlen).
    simpl in Hb. injection Hb as <-. discriminate Hlen.
Qed.

(** X20: the part of the length invariant the code keeps.  For every
    Memory instance, the length of the backing buffer equals the size field
    after construction, and this is preserved by read, write, reset,
    partition, construction of further instances, and by add with either
    loader whenever the program's instructions end inside the buffer from
    the insertion point (address 0 for StaticLoader, the lowest zero address
    for DynamicLoader) or the buffer holds no zero byte, so that the load
    fails. *)
Theorem Memory_length_invariant :
  Memory_inv World_init ∧
  (∀ w size, (0 ≤ size)%Z →
     ∃ self w' b,
       Memory_init size w = (Ok self, w') ∧
       Memory_objects w' !! self
         = Some {| Memory.size := size; Memory.memory := length (heap w) |} ∧
       heap w' !! length (heap w) = Some b ∧
       Z.of_nat (length b) = size) ∧
  (∀ c w, Memory_inv w → fitting c w → Memory_inv (exec c w)).
Proof.
  split_and!; [apply Memory_inv_init | | apply exec_Memory_inv].
  intros w size Hsize. unfold_M. unfold bytearray. rewrite decide_False by lia.
  do 3 eexists. split_and!; [done | | |]; simpl.
  - by apply list_lookup_middle.
  - by apply list_lookup_middle.
  - rewrite length_replicate. lia.
Qed.

Lemma Memory_length_invariant_witness :
  Memory_inv (exec (Call_add 0 program_1_2_3 StaticLoader) world_memory_2_full).
Proof.
  apply (proj2 (proj2 Memory_length_invariant)).
  - apply (exec_Memory_inv (Call_write 0 1 6)); [| done].
    apply (exec_Memory_inv (Call_write 0 0 5)); [| done].
    apply (exec_Memory_inv (Call_init 2) World_init); [apply Memory_inv_init | done].
  - intros o b [= <-] [= <-] Hin.
    apply list_elem_of_In in Hin. simpl in Hin. lia.
Defined.

(** A program that fits from the lowest zero address, and a program too
    long for a buffer without a zero byte: the first is copied inside the
    buffer, the second is refused and nothing changes. *)
Example Memory_length_invariant_runs :
  fitting (Call_add 0 program_1_2_3 DynamicLoader) world_memory_8 ∧
  buffer_of 0 (exec (Call_add 0 program_1_2_3 DynamicLoader) world_memory_8)
    = Some [1; 2; 3; 0; 0; 0; 0; 0]%Z ∧
  fitting (Call_add 0 program_1_2_3 StaticLoader) world_memory_2_full ∧
  Memory_add 0 program_1_2_3 StaticLoader world_memory_2_full
    = (Raise MemoryError, world_memory_2_full).
Proof.
  split_and!; [| reflexivity | | reflexivity].
  - intros o b [= <-] [= <-] i Hi.
    rewrite (lowest_zero_unique _ _ _ Hi (lowest_zero_here _)). simpl. lia.
  - intros o b [= <-] [= <-] Hin.
    apply list_elem_of_In in Hin. simpl in Hin. lia.
Qed.

(** ** Partition records (C7) *)

Section partition.
Implicit Types (w : World) (b snap : buffer) (d : loc) (self : ref) (o : Memory.t).

Lemma Memory_partition_run w self o b (s e : Z) :
  Memory_objects w !! self = Some o →
  heap w !! Memory.memory o = Some b →
  Memory_partition self s e w =
    if decide (0 ≤ s ∧ s < e ∧ e ≤ Memory.size o)%Z then
      (Ok tt,
       {| heap := heap w ++ [getslice b s e];
          Memory_partitions :=
            Memory_partitions w
              ++ [{| Memory.start := s; Memory.end_ := e; Memory.data := length (heap w) |}];
          Memory_objects := Memory_objects w |})
    else (Raise IndexError, w).
Proof. intros Ho Hb. unfold_M. rewrite Ho. case_decide; [| done]. by rewrite Hb. Qed.

(** No call writes to a bytearray object that is not the buffer of a
    [Memory] object, and no call makes it the buffer of one. *)
Lemma exec_snapshot_kept c w d snap :
  snapshot_kept d snap w → snapshot_kept d snap (exec c w).
Proof.
  intros [Hd Hfresh]. pose proof (lookup_lt_Some _ _ _ Hd) as Hlt.
  destruct c; simpl; unfold_M.
  - (* Memory(size) *)
    destruct (bytearray size) as [b |]; simpl; [| done].
    split; simpl; [by apply lookup_app_l_Some |].
    intros self' o' [Ho' | [_ Ho']]%lookup_app_Some; [by eapply Hfresh |].
    apply list_lookup_singleton_Some in Ho' as [_ <-]. simpl. lia.
  - (* reset *)
    destruct (Memory_objects w !! self) as [o |] eqn:Ho; simpl; [| done].
    destruct (bytearray (Memory.size o)) as [b |]; simpl; [| done].
    split; simpl; [by apply lookup_app_l_Some |].
    intros self' o' [(_ & <- & _) | [_ Ho']]%list_lookup_insert_Some;
      [simpl; lia | by eapply Hfresh].
  - (* add *)
    destruct (Memory_objects w !! self) as [o |] eqn:Ho; simpl; [| done].
    destruct (heap w !! Memory.memory o) as [b |] eqn:Hb;
      [| by rewrite on_buffer_dangling].
    rewrite (on_buffer_run _ _ _ b) by done.
    split; simpl; [| done]. rewrite list_lookup_insert_ne; [done | by eapply Hfresh].
  - (* read *)
    destruct (Memory_objects w !! self) as [o |] eqn:Ho; simpl; [| done].
    case_decide; simpl; [| done].
    by destruct (heap w !! Memory.memory o) as [b |] eqn:Hb.
  - (* write *)
    destruct (Memory_objects w !! self) as [o |] eqn:Ho; simpl; [| done].
    repeat (case_decide; simpl; [| done]).
    destruct (heap w !! Memory.memory o) as [b |] eqn:Hb;
      [| by rewrite on_buffer_dangling].
    rewrite (on_buffer_run _ _ _ b) by done.
    split; simpl; [| done]. rewrite list_lookup_insert_ne; [done | by eapply Hfresh].
  - (* partition *)
    destruct (Memory_objects w !! self) as [o |] eqn:Ho; simpl; [| done].
    case_decide; simpl; [| done].
    destruct (heap w !! Memory.memory o) as [b |] eqn:Hb; simpl; [| done].
    split; simpl; [by apply lookup_app_l_Some | done].
Qed.

Lemma exec_all_snapshot_kept cs : ∀ w d snap,
  snapshot_kept d snap w → snapshot_kept d snap (exec_all cs w).
Proof.
  induction cs as [| c cs IH]; intros w d snap Hkept; [done |].
  apply IH. by apply exec_snapshot_kept.
Qed.

(** Partition records are only ever appended. *)
Lemma exec_partitions_grow c w :
  ∃ more, Memory_partitions (exec c w) = Memory_partitions w ++ more.
Proof.
  destruct c; simpl; unfold_M;
    try (destruct (Memory_objects w !! self) as [o |] eqn:Ho; simpl;
         [| by exists []; rewrite app_nil_r]).
  - destruct (bytearray size); simpl; by exists []; rewrite app_nil_r.
  - destruct (bytearray (Memory.size o)); simpl; by exists []; rewrite app_nil_r.
  - destruct (heap w !! Memory.memory o) as [b |] eqn:Hb;
      [rewrite (on_buffer_run _ _ _ b) by done | rewrite on_buffer_dangling by done];
      by exists []; rewrite app_nil_r.
  - case_decide; simpl; [| by exists []; rewrite app_nil_r].
    destruct (heap w !! Memory.memory o); simpl; [destruct (_ !! _) |];
      by exists []; rewrite app_nil_r.
  - repeat (case_decide; simpl; [| by exists []; rewrite app_nil_r]).
    destruct (heap w !! Memory.memory o) as [b |] eqn:Hb;
      [rewrite (on_buffer_run _ _ _ b) by done | rewrite on_buffer_dangling by done];
      by exists []; rewrite app_nil_r.
  - case_decide; simpl; [| by exists []; rewrite app_nil_r].
    destruct (heap w !! Memory.memory o); simpl; [by eexists | by exists []; rewrite app_nil_r].
Qed.

Lemma exec_all_partitions_grow cs : ∀ w,
  ∃ more, Memory_partitions (exec_all cs w) = Memory_partitions w ++ more.
Proof.
  induction cs as [| c cs IH]; intros w; [by exists []; rewrite app_nil_r |].
  simpl. destruct (IH (exec c w)) as [more2 ->].
  destruct (exec_partitions_grow c w) as [more1 ->].
  exists (more1 ++ more2). by rewrite app_assoc.
Qed.

(** Every call keeps the buffers of the [Memory] objects allocated. *)
Lemma exec_buffers_allocated c w :
  buffers_allocated w → buffers_allocated (exec c w).
Proof.
  intros Halloc. destruct c; simpl; unfold_M;
    try (destruct (Memory_objects w !! self) as [o |] eqn:Ho; simpl; [| done]).
  - destruct (bytearray size); simpl; [| done].
    intros self' o' [Ho' | [_ Ho']]%lookup_app_Some; simpl in *; rewrite length_app; simpl.
    + pose proof (Halloc _ _ Ho'). lia.
    + apply list_lookup_singleton_Some in Ho' as [_ <-]. simpl. lia.
  - destruct (bytearray (Memory.size o)); simpl; [| done].
    intros self' o' [(_ & <- & _) | [_ Ho']]%list_lookup_insert_Some;
      simpl in *; rewrite length_app; simpl; [lia |].
    pose proof (Halloc _ _ Ho'). lia.
  - destruct (heap w !! Memory.memory o) as [b |] eqn:Hb;
      [rewrite (on_buffer_run _ _ _ b) by done | by rewrite on_buffer_dangling].
    intros self' o' Ho'. simpl in *. rewrite length_insert. by eapply Halloc.
  - case_decide; simpl; [| done].
    by destruct (heap w !! Memory.memory o); simpl; [destruct (_ !! _) |].
  - repeat (case_decide; simpl; [| done]).
    destruct (heap w !! Memory.memory o) as [b |] eqn:Hb;
      [rewrite (on_buffer_run _ _ _ b) by done | by rewrite on_buffer_dangling].
    intros self' o' Ho'. simpl in *. rewrite length_insert. by eapply Halloc.
  - case_decide; simpl; [| done].
    destruct (heap w !! Memory.memory o); simpl; [| done].
    intros self' o' Ho'. simpl in *. rewrite length_app. simpl.
    pose proof (Halloc _ _ Ho'). lia.
Qed.

(** So the buffers are allocated in every store that calls of the API can
    build from the initial one. *)
Lemma reachable_buffers_allocated cs : buffers_allocated (exec_all cs World_init).
Proof.
  assert (∀ w, buffers_allocated w → buffers_allocated (exec_all cs w)) as Hall.
  { induction cs as [| c cs IH]; intros w Hw; [done |].
    apply IH. by apply exec_buffers_allocated. }
  apply Hall. intros self o Ho. simpl in Ho. by rewrite lookup_nil in Ho.
Qed.

End partition.

(** C7: Memory.partition(s, e) fails with [IndexError] (the spec's
    OutOfBounds) exactly when s < 0, s >= e or e > size, s = e included, and
    then changes nothing; with a valid range it appends exactly one record,
    whose data is a new bytearray holding memory[s:e] as it is at the call,
    and whatever calls follow (writes and resets among them) that bytearray
    holds the same bytes and the record stays in the list. *)
Theorem Memory_partition_snapshot (w : World) (self : ref) (o : Memory.t)
    (b : buffer) (s e : Z) :
  buffers_allocated w →
  Memory_objects w !! self = Some o →
  heap w !! Memory.memory o = Some b →
  ((Memory_partition self s e w).1 = Raise IndexError
     ↔ (s < 0 ∨ s >= e ∨ e > Memory.size o)%Z) ∧
  ((s < 0 ∨ s >= e ∨ e > Memory.size o)%Z →
     Memory_partition self s e w = (Raise IndexError, w)) ∧
  ((0 ≤ s ∧ s < e ∧ e ≤ Memory.size o)%Z →
     ∃ w',
       Memory_partition self s e w = (Ok tt, w') ∧
       Memory_partitions w' =
         Memory_partitions w
           ++ [{| Memory.start := s; Memory.end_ := e; Memory.data := length (heap w) |}] ∧
       heap w' = heap w ++ [getslice b s e] ∧
       Memory_objects w' = Memory_objects w ∧
       getslice b s e = take (Z.to_nat e - Z.to_nat s) (drop (Z.to_nat s) b) ∧
       ∀ cs : list call,
         heap (exec_all cs w') !! length (heap w) = Some (getslice b s e) ∧
         ∃ more, Memory_partitions (exec_all cs w') = Memory_partitions w' ++ more).
Proof.
  intros Halloc Ho Hb. rewrite (Memory_partition_run w self o b s e Ho Hb).
  split_and!.
  - case_decide; simpl; split; [done | lia | lia | done].
  - intros Hbad. by rewrite decide_False by lia.
  - intros Hok. rewrite decide_True by done. eexists. split; [done |]. simpl.
    split_and!; [done | done | done | apply getslice_nat; lia |].
    intros cs. split; [| apply exec_all_partitions_grow].
    apply exec_all_snapshot_kept. split; simpl.
    + by apply list_lookup_middle.
    + intros self' o' Ho'. pose proof (Halloc _ _ Ho'). lia.
Qed.

Lemma Memory_partition_snapshot_witness :
  ((Memory_partition 0 2 5 world_memory_8_written).1 = Raise IndexError
     ↔ (2 < 0 ∨ 2 >= 5 ∨ 5 > 8)%Z) ∧
  ((2 < 0 ∨ 2 >= 5 ∨ 5 > 8)%Z →
     Memory_partition 0 2 5 world_memory_8_written
       = (Raise IndexError, world_memory_8_written)) ∧
  ((0 ≤ 2 ∧ 2 < 5 ∧ 5 ≤ 8)%Z →
     ∃ w',
       Memory_partition 0 2 5 world_memory_8_written = (Ok tt, w') ∧
       Memory_partitions w' =
         [] ++ [{| Memory.start := 2; Memory.end_ := 5; Memory.data := 1 |}] ∧
       heap w' = [[0; 0; 7; 8; 9; 0; 0; 0]%Z] ++ [[7; 8; 9]%Z] ∧
       Memory_objects w' = [{| Memory.size := 8; Memory.memory := 0 |}] ∧
       [7; 8; 9]%Z = take (Z.to_nat 5 - Z.to_nat 2) (drop (Z.to_nat 2) [0; 0; 7; 8; 9; 0; 0; 0]%Z) ∧
       ∀ cs : list call,
         heap (exec_all cs w') !! 1 = Some [7; 8; 9]%Z ∧
         ∃ more, Memory_partitions (exec_all cs w') = Memory_partitions w' ++ more).
Proof.
  apply (Memory_partition_snapshot world_memory_8_written 0
           {| Memory.size := 8; Memory.memory := 0 |} [0; 0; 7; 8; 9; 0; 0; 0]%Z 2 5).
  - intros [| self] o'; simpl; [intros [= <-]; simpl; lia | by rewrite lookup_nil].
  - reflexivity.
  - reflexivity.
Defined.

Example Memory_partition_snapshot_run :
  ∃ w1 w2,
    Memory_partition 0 2 5 world_memory_8_written = (Ok tt, w1) ∧
    w2 = exec_all [Call_write 0 2 255; Call_reset 0; Call_write 0 3 1] w1 ∧
    Memory_partitions w2 = [{| Memory.start := 2; Memory.end_ := 5; Memory.data := 1 |}] ∧
    heap w2 !! 1 = Some [7; 8; 9]%Z ∧
    Memory_objects w2 = [{| Memory.size := 8; Memory.memory := 2 |}] ∧
    heap w2 !! 2 = Some [0; 0; 0; 1; 0; 0; 0; 0]%Z ∧
    heap w2 !! 0 = Some [0; 0; 255; 8; 9; 0; 0; 0]%Z.
Proof. do 2 eexists. split_and!; reflexivity. Qed.

(** ** The shared partition list (C3) *)

(** C3 fails on the code: [partitions = []] is run once, in the class body,
    and [__init__] binds no list of its own, so a record appended through one
    instance is read through every other.  Here [A.partition(0, 4)] adds a
    record to the records of [B], which held none. *)
Lemma Memory_partitions_shared_between_instances :
  Memory_get_partitions 0 world_two_memories = [] ∧
  Memory_get_partitions 1 world_two_memories = [] ∧
  ∃ w',
    Memory_partition 0 0 4 world_two_memories = (Ok tt, w') ∧
    Memory_get_partitions 0 w'
      = [{| Memory.start := 0; Memory.end_ := 4; Memory.data := 2 |}] ∧
    Memory_get_partitions 1 w'
      = [{| Memory.start := 0; Memory.end_ := 4; Memory.data := 2 |}] ∧
    length (Memory_get_partitions 1 w')
      ≠ length (Memory_get_partitions 1 world_two_memories).
Proof.
  split_and!; [reflexivity | reflexivity |].
  eexists. split_and!; [reflexivity | reflexivity | reflexivity | simpl; lia].
Qed.

(** ** Pagination (C2) *)

Section pagination.
Implicit Types (w : World) (b : buffer) (memory : ref) (o : Memory.t).

(** The loop of [Pagination.__init__] when every stride gives a valid range. *)
Lemma Pagination_init_loop memory o b (page_size : Z) (starts : list Z) : ∀ w,
  Memory_objects w !! memory = Some o →
  heap w !! Memory.memory o = Some b →
  Forall (λ i, 0 ≤ i ∧ i < Z.min (i + page_size) (Memory.size o))%Z starts →
  for_each starts
    (λ i, Memory_partition memory i (Z.min (i + page_size) (Memory.size o))) w =
    (Ok tt,
     {| heap := heap w ++ ((λ i, getslice b i (Z.min (i + page_size) (Memory.size o))) <$> starts);
        Memory_partitions :=
          Memory_partitions w ++ page_records (length (heap w)) starts page_size (Memory.size o);
        Memory_objects := Memory_objects w |}).
Proof.
  induction starts as [| i starts IH]; intros w Ho Hb Hvalid.
  - simpl. unfold ret. rewrite !app_nil_r. by destruct w.
  - apply Forall_cons in Hvalid as [Hi Hvalid]. simpl. unfold bind at 1.
    rewrite (Memory_partition_run w memory o b _ _ Ho Hb).
    rewrite decide_True by lia.
    rewrite IH; simpl; [| done | by apply lookup_app_l_Some | done].
    rewrite length_app, Nat.add_1_r, <- !app_assoc. done.
Qed.

End pagination.

(** C2: over a Memory of size 512, Pagination with page size 128 computes
    the page count 512 // 128 = 4 (kept in the attribute [page_size]), makes
    a [pages] mapping of 4 keys, and registers exactly 4 partition records,
    one per stride of 128; the end of each is min(start + page count, 512),
    so the first record is the range 0..4 and not 0..128. *)
Theorem Pagination_512_128 (w : World) (memory : ref) (o : Memory.t) (b : buffer) :
  Memory_objects w !! memory = Some o →
  Memory.size o = 512%Z →
  heap w !! Memory.memory o = Some b →
  ∃ pg w',
    Pagination.init memory 128 w = (Ok pg, w') ∧
    Pagination.page_size pg = (512 `div` 128)%Z ∧
    Pagination.page_size pg = 4%Z ∧
    Pagination.pages pg = list_to_map [(0, tt); (1, tt); (2, tt); (3, tt)]%Z ∧
    Memory_partitions w' =
      Memory_partitions w ++
        [ {| Memory.start := 0; Memory.end_ := 4; Memory.data := length (heap w) |};
          {| Memory.start := 128; Memory.end_ := 132; Memory.data := length (heap w) + 1 |};
          {| Memory.start := 256; Memory.end_ := 260; Memory.data := length (heap w) + 2 |};
          {| Memory.start := 384; Memory.end_ := 388; Memory.data := length (heap w) + 3 |} ] ∧
    Forall (λ r, Memory.end_ r
                 = Z.min (Memory.start r + Pagination.page_size pg) (Memory.size o))
           (drop (length (Memory_partitions w)) (Memory_partitions w')) ∧
    Memory_objects w' = Memory_objects w.
Proof.
  intros Ho Hsize Hb. unfold Pagination.init, bind at 1, attrs. rewrite Ho. simpl.
  rewrite Hsize. change (512 `div` 128)%Z with 4%Z.
  change (range 0 512 128) with [0; 128; 256; 384]%Z.
  change (range 0 4 1) with [0; 1; 2; 3]%Z.
  pose proof (Pagination_init_loop memory o b 4 [0; 128; 256; 384]%Z w Ho Hb) as Hloop.
  rewrite Hsize in Hloop. unfold bind. rewrite Hloop by (repeat constructor; lia).
  unfold ret. do 2 eexists. split; [done |]. simpl.
  split_and!; [done | done | done | | | done].
  - rewrite !Nat.add_succ_r, !Nat.add_0_r. reflexivity.
  - rewrite drop_app_length. repeat constructor.
Qed.

Lemma Pagination_512_128_witness :
  ∃ pg w',
    Pagination.init 0 128 world_memory_512 = (Ok pg, w') ∧
    Pagination.page_size pg = (512 `div` 128)%Z ∧
    Pagination.page_size pg = 4%Z ∧
    Pagination.pages pg = list_to_map [(0, tt); (1, tt); (2, tt); (3, tt)]%Z ∧
    Memory_partitions w' =
      Memory_partitions world_memory_512 ++
        [ {| Memory.start := 0; Memory.end_ := 4; Memory.data := 1 |};
          {| Memory.start := 128; Memory.end_ := 132; Memory.data := 1 + 1 |};
          {| Memory.start := 256; Memory.end_ := 260; Memory.data := 1 + 2 |};
          {| Memory.start := 384; Memory.end_ := 388; Memory.data := 1 + 3 |} ] ∧
    Forall (λ r, Memory.end_ r = Z.min (Memory.start r + Pagination.page_size pg) 512)
           (drop (length (Memory_partitions world_memory_512)) (Memory_partitions w')) ∧
    Memory_objects w' = Memory_objects world_memory_512.
Proof.
  apply (Pagination_512_128 world_memory_512 0
           {| Memory.size := 512; Memory.memory := 0 |} (replicate 512 0%Z)).
  - reflexivity.
  - reflexivity.
  - reflexivity.
Defined.

Example Pagination_512_128_fresh :
  Memory_partitions (Pagination.init 0 128 world_memory_512).2 =
    [ {| Memory.start := 0; Memory.end_ := 4; Memory.data := 1 |};
      {| Memory.start := 128; Memory.end_ := 132; Memory.data := 2 |};
      {| Memory.start := 256; Memory.end_ := 260; Memory.data := 3 |};
      {| Memory.start := 384; Memory.end_ := 388; Memory.data := 4 |} ] ∧
  heap (Pagination.init 0 128 world_memory_512).2 !! 1 = Some [0; 0; 0; 0]%Z ∧
  match (Pagination.init 0 128 world_memory_512).1 with
  | Ok pg => Pagination.page_size pg = 4%Z
  | Raise _ => False
  end.
Proof. split_and!; reflexivity. Qed.

(** * Further properties of the code *)

(** ** [range] *)

Section ranges.
Implicit Types (start stop step x : Z) (k n : nat).

Lemma length_range start stop step :
  length (range start stop step) = range_len start stop step.
Proof. unfold range. by rewrite length_fmap, length_seq. Qed.

Lemma lookup_range start stop step k :
  k < range_len start stop step →
  range start stop step !! k = Some (start + Z.of_nat k * step)%Z.
Proof.
  intros Hk. unfold range. rewrite list_lookup_fmap, lookup_seq_lt by done. done.
Qed.

(** With a positive step, the [k]-th element exists as long as it is below
    [stop]. *)
Lemma range_len_lt start stop step k :
  (0 < step)%Z →
  k < range_len start stop step ↔ (start + Z.of_nat k * step < stop)%Z.
Proof.
  intros Hstep. unfold range_len. rewrite decide_True by done.
  pose proof (Z.div_mod (stop - start + step - 1) step) as Hdiv.
  pose proof (Z.mod_pos_bound (stop - start + step - 1) step Hstep) as Hmod.
  split; intros H.
  - assert (Z.of_nat k < (stop - start + step - 1) `div` step)%Z by lia. nia.
  - assert (Z.of_nat k < (stop - start + step - 1) `div` step)%Z by nia. lia.
Qed.

Lemma elem_of_range start stop step x :
  (0 < step)%Z →
  x ∈ range start stop step ↔
    (start ≤ x < stop)%Z ∧ ((x - start) `mod` step = 0)%Z.
Proof.
  intros Hstep. unfold range. rewrite list_elem_of_fmap. split.
  - intros (k & -> & Hk). apply elem_of_seq in Hk.
    assert (k < range_len start stop step) as Hlt by lia.
    apply range_len_lt in Hlt; [| done]. split; [nia |].
    replace (start + Z.of_nat k * step - start)%Z with (Z.of_nat k * step)%Z by lia.
    by apply Z.mod_mul; lia.
  - intros [Hx Hmod]. apply Z.mod_divide in Hmod as [q Hq]; [| lia].
    assert (0 ≤ q)%Z by nia. exists (Z.to_nat q).
    split; [lia |]. apply elem_of_seq. split; [lia |].
    simpl. apply range_len_lt; [done | lia].
Qed.

Lemma range_nil start stop step : (stop ≤ start)%Z → (0 < step)%Z → range start stop step = [].
Proof.
  intros Hle Hstep. apply length_zero_iff_nil. rewrite length_range.
  destruct (range_len start stop step) as [| n] eqn:Hn; [done |].
  assert (0 < range_len start stop step) as Hlt by lia.
  apply range_len_lt in Hlt; [lia | done].
Qed.

Lemma range_neg_step stop step : (0 ≤ stop)%Z → (step < 0)%Z → range 0 stop step = [].
Proof.
  intros Hstop Hstep. apply length_zero_iff_nil. rewrite length_range.
  unfold range_len. rewrite decide_False, decide_True by lia.
  assert ((0 - stop - step - 1) `div` (- step) ≤ 0)%Z; [| lia].
  assert ((0 - stop - step - 1) `div` (- step) < 1)%Z; [| lia].
  apply Z.div_lt_upper_bound; lia.
Qed.

End ranges.

(** ** More on Program *)

Section program_more.
Implicit Types (p : Program.t) (v : Z) (vs used : list Z) (n m i j : nat).

(** X3: add_instruction with a value outside 0..255 raises [ValueError]
    when some slot holds 0 (the bytearray refuses the value) and
    [MemoryError] when none does; the program is unchanged either way. *)
Theorem add_instruction_rejects_non_byte p v :
  Program_wf p →
  ¬ is_byte v →
  (0%Z ∈ Program.instructions p →
     Program.add_instruction v p = (Raise ValueError, p)) ∧
  (0%Z ∉ Program.instructions p →
     Program.add_instruction v p = (Raise MemoryError, p)).
Proof.
  intros Hwf Hv. split.
  - intros Hin. destruct (lowest_zero_exists _ Hin) as [j Hj].
    rewrite (add_instruction_found v p j) by done. by rewrite decide_False.
  - intros Hfull. by apply add_instruction_full.
Qed.

(** X2: a successful add_instruction changes exactly the slot whose address
    it returns, which held 0, to the given byte; every other slot, the size
    and the length of the buffer stay as they were. *)
Theorem add_instruction_frame p v (a : Z) p' :
  Program_wf p →
  Program.add_instruction v p = (Ok a, p') →
  ∃ j,
    a = Z.of_nat j ∧
    is_byte v ∧
    Program.instructions p !! j = Some 0%Z ∧
    Program.instructions p' !! j = Some v ∧
    (∀ k, k ≠ j → Program.instructions p' !! k = Program.instructions p !! k) ∧
    Program.size p' = Program.size p ∧
    length (Program.instructions p') = length (Program.instructions p).
Proof.
  intros Hwf. destruct (decide (0%Z ∈ Program.instructions p)) as [Hin | Hfull].
  - destruct (lowest_zero_exists _ Hin) as [j Hj].
    rewrite (add_instruction_found v p j) by done.
    case_decide; intros [= <- <-]. exists j.
    pose proof (lowest_zero_lt _ _ Hj). destruct Hj as [Hj _]. simpl.
    split_and!; [done | done | done | by apply list_lookup_insert_eq | | done
                | by rewrite length_insert].
    intros k Hk. by rewrite list_lookup_insert_ne.
  - by rewrite add_instruction_full.
Qed.

Lemma lowest_zero_after used (rest : list Z) :
  0%Z ∉ used → lowest_zero (used ++ 0%Z :: rest) (length used).
Proof.
  intros Hused. split; [by apply list_lookup_middle |].
  intros k x Hk Hx ->. rewrite lookup_app_l in Hx by done.
  apply Hused. by eapply list_elem_of_lookup_2.
Qed.

(** Filling a buffer whose free slots are all at the end. *)
Lemma add_instructions_append vs : ∀ used m size,
  size = Z.of_nat (length used + m) →
  0%Z ∉ used →
  Forall (λ v, 0 < v < 256)%Z vs →
  length vs ≤ m →
  Program.add_instructions vs
    {| Program.size := size; Program.instructions := used ++ replicate m 0%Z |} =
    (Ok (Z.of_nat <$> seq (length used) (length vs)),
     {| Program.size := size;
        Program.instructions := used ++ vs ++ replicate (m - length vs) 0%Z |}).
Proof.
  induction vs as [| v vs IH]; intros used m size Hsize Hused Hvs Hlen.
  - simpl. unfold ret. by rewrite Nat.sub_0_r.
  - apply Forall_cons in Hvs as [Hv Hvs]. simpl in Hlen.
    destruct m as [| m]; [lia |]. simpl replicate.
    simpl. unfold bind at 1.
    rewrite (add_instruction_found v _ (length used));
      [| unfold Program_wf; simpl; rewrite length_app; simpl;
         rewrite length_replicate; lia
       | by apply lowest_zero_after].
    rewrite decide_True by (unfold is_byte; lia). simpl.
    rewrite insert_app_r_alt, Nat.sub_diag by lia. simpl.
    rewrite (cons_middle v used), app_assoc.
    unfold bind at 1. rewrite (IH (used ++ [v]) m size).
    + unfold ret. rewrite length_app. simpl. rewrite Nat.add_1_r.
      by rewrite <- !app_assoc.
    + rewrite length_app. simpl. lia.
    + rewrite elem_of_app, list_elem_of_singleton. intros [? | ?]; [done | lia].
    + done.
    + lia.
Qed.

(** X1: a new program of capacity n that is given k <= n non-zero bytes
    holds these bytes in the order of the calls, followed by n - k zeros, and
    the calls return the addresses 0, 1, ..., k - 1. *)
Theorem Program_fill (size : Z) (vs : list Z) :
  (Z.of_nat (length vs) ≤ size)%Z →
  Forall (λ v, 0 < v < 256)%Z vs →
  ∃ p0,
    Program.init size = Ok p0 ∧
    Program.add_instructions vs p0 =
      (Ok (Z.of_nat <$> seq 0 (length vs)),
       {| Program.size := size;
          Program.instructions := vs ++ replicate (Z.to_nat size - length vs) 0%Z |}).
Proof.
  intros Hlen Hvs. unfold Program.init, bytearray. rewrite decide_False by lia.
  eexists. split; [done |].
  apply (add_instructions_append vs [] (Z.to_nat size) size);
    [simpl; lia | apply not_elem_of_nil | done | lia].
Qed.

End program_more.

Lemma add_instruction_rejects_non_byte_witness :
  (0%Z ∈ Program.instructions program_1_0_2 →
     Program.add_instruction 256 program_1_0_2 = (Raise ValueError, program_1_0_2)) ∧
  (0%Z ∉ Program.instructions program_1_0_2 →
     Program.add_instruction 256 program_1_0_2 = (Raise MemoryError, program_1_0_2)).
Proof.
  apply (add_instruction_rejects_non_byte program_1_0_2 256).
  - reflexivity.
  - unfold is_byte. lia.
Defined.

Lemma add_instruction_frame_witness :
  ∃ j,
    1%Z = Z.of_nat j ∧
    is_byte 7 ∧
    Program.instructions program_1_0_2 !! j = Some 0%Z ∧
    [1; 7; 2; 0]%Z !! j = Some 7%Z ∧
    (∀ k, k ≠ j → [1; 7; 2; 0]%Z !! k = Program.instructions program_1_0_2 !! k) ∧
    4%Z = Program.size program_1_0_2 ∧
    length [1; 7; 2; 0]%Z = length (Program.instructions program_1_0_2).
Proof.
  apply (add_instruction_frame program_1_0_2 7 1
           {| Program.size := 4; Program.instructions := [1; 7; 2; 0]%Z |}).
  - reflexivity.
  - reflexivity.
Defined.

Lemma Program_fill_witness :
  ∃ p0,
    Program.init 4 = Ok p0 ∧
    Program.add_instructions [5; 6; 7]%Z p0 =
      (Ok (Z.of_nat <$> seq 0 3),
       {| Program.size := 4; Program.instructions := [5; 6; 7]%Z ++ replicate (4 - 3) 0%Z |}).
Proof.
  apply (Program_fill 4 [5; 6; 7]%Z).
  - simpl. lia.
  - repeat constructor.
Defined.

(** ** More on the loaders *)

Section loaders_more.
Implicit Types (program : Program.t) (memory used : buffer) (n m i : nat).

Lemma StaticLoader_load_length program memory :
  0%Z ∈ memory →
  length (StaticLoader.load program memory).2
    = length memory `max` length (Program.instructions program).
Proof.
  intros Hin. rewrite StaticLoader_load_found by done. simpl.
  rewrite length_app, length_drop. lia.
Qed.

Lemma DynamicLoader_load_length program memory i :
  lowest_zero memory i →
  length (DynamicLoader.load program memory).2
    = length memory `max` (i + length (Program.instructions program)).
Proof.
  intros Hi. pose proof (lowest_zero_lt _ _ Hi).
  rewrite (DynamicLoader_load_found _ _ i) by done. simpl.
  rewrite !length_app, length_take, length_drop. lia.
Qed.

Lemma Loader_load_length_ge (loader : Loader) program memory :
  length memory ≤ length (Loader_load loader program memory).2.
Proof.
  destruct loader; simpl; [done | |];
    (destruct (decide (0%Z ∈ memory)) as [Hin | Hfull]).
  - rewrite StaticLoader_load_length by done. lia.
  - by rewrite StaticLoader_load_full.
  - destruct (lowest_zero_exists _ Hin) as [i Hi].
    rewrite (DynamicLoader_load_length _ _ i Hi). lia.
  - by rewrite DynamicLoader_load_full.
Qed.

(** X4: a load never makes the target buffer shorter: a load that copies
    leaves max(len(target), insertion point + len(instructions)) bytes, the
    insertion point being 0 for StaticLoader and the lowest zero address for
    DynamicLoader; a load that raises leaves the target buffer, and so its
    length, exactly as it was. *)
Theorem Loader_load_never_shrinks (loader : Loader) program memory :
  length memory ≤ length (Loader_load loader program memory).2 ∧
  (0%Z ∈ memory →
     length (StaticLoader.load program memory).2
       = length memory `max` length (Program.instructions program)) ∧
  (∀ i, lowest_zero memory i →
     length (DynamicLoader.load program memory).2
       = length memory `max` (i + length (Program.instructions program))) ∧
  (∀ e memory',
     Loader_load loader program memory = (Raise e, memory') →
     memory' = memory ∧ length memory' = length memory) ∧
  (0%Z ∉ memory →
     StaticLoader.load program memory = (Raise MemoryError, memory) ∧
     DynamicLoader.load program memory = (Raise MemoryError, memory)).
Proof.
  split_and!;
    [apply Loader_load_length_ge | apply StaticLoader_load_length
    | apply DynamicLoader_load_length | |].
  - intros e memory' Hload. apply Loader_load_raise in Hload as ->. done.
  - intros Hfull. by rewrite StaticLoader_load_full, DynamicLoader_load_full.
Qed.

(** X5: when the first byte of the target buffer is 0, StaticLoader and
    DynamicLoader do the same. *)
Theorem Loaders_agree_on_free_address_0 program memory :
  memory !! 0 = Some 0%Z →
  StaticLoader.load program memory = DynamicLoader.load program memory.
Proof.
  intros H0. rewrite StaticLoader_load_found by (by eapply list_elem_of_lookup_2).
  rewrite (DynamicLoader_load_found _ _ 0); [done |].
  split; [done | lia].
Qed.

Lemma DynamicLoader_load_append program used m :
  0%Z ∉ used → 0 < m →
  DynamicLoader.load program (used ++ replicate m 0%Z) =
    (Ok tt, used ++ Program.instructions program
              ++ replicate (m - length (Program.instructions program)) 0%Z).
Proof.
  intros Hused Hm. destruct m as [| m]; [lia |].
  rewrite (DynamicLoader_load_found _ _ (length used)) by (by apply lowest_zero_after).
  rewrite take_app_length, drop_app_add, drop_replicate. done.
Qed.

(** X6: on a buffer whose zero bytes are all at its end, DynamicLoader puts
    a program that holds no zero byte right behind the bytes in use, and the
    next program right behind that one. *)
Theorem DynamicLoader_packs program1 program2 used m :
  0%Z ∉ used →
  0%Z ∉ Program.instructions program1 →
  length (Program.instructions program1) < m →
  (let* _ := DynamicLoader.load program1 in DynamicLoader.load program2)
    (used ++ replicate m 0%Z) =
    (Ok tt,
     used ++ Program.instructions program1 ++ Program.instructions program2
       ++ replicate (m - length (Program.instructions program1)
                       - length (Program.instructions program2)) 0%Z).
Proof.
  intros Hused H1 Hm. unfold bind.
  rewrite DynamicLoader_load_append by (done || lia).
  rewrite app_assoc, DynamicLoader_load_append; [by rewrite <- app_assoc | | lia].
  rewrite elem_of_app. tauto.
Qed.

End loaders_more.

Lemma Loaders_agree_on_free_address_0_witness :
  StaticLoader.load program_1_2_3 [0; 9; 0; 0; 9]%Z
  = DynamicLoader.load program_1_2_3 [0; 9; 0; 0; 9]%Z.
Proof. apply (Loaders_agree_on_free_address_0 program_1_2_3 [0; 9; 0; 0; 9]%Z). reflexivity. Defined.

Lemma Loader_load_never_shrinks_witness :
  length (DynamicLoader.load program_1_2_3 [9; 9; 0]%Z).2 = 3 `max` (2 + 3).
Proof.
  apply (proj1 (proj2 (proj2
           (Loader_load_never_shrinks DynamicLoader program_1_2_3 [9; 9; 0]%Z))) 2).
  split; [reflexivity |].
  intros [| [| k]] x Hk; [| | lia]; simpl; intros [= <-]; lia.
Defined.

Lemma DynamicLoader_packs_witness :
  (let* _ := DynamicLoader.load program_1_2_3 in DynamicLoader.load program_1_2_3)
    ([9; 9]%Z ++ replicate 8 0%Z) =
    (Ok tt, [9; 9]%Z ++ [1; 2; 3]%Z ++ [1; 2; 3]%Z ++ replicate (8 - 3 - 3) 0%Z).
Proof.
  apply (DynamicLoader_packs program_1_2_3 program_1_2_3 [9; 9]%Z 8).
  - intros Hin. apply list_elem_of_In in Hin. simpl in Hin. lia.
  - intros Hin. apply list_elem_of_In in Hin. simpl in Hin. lia.
  - simpl. lia.
Defined.

(** ** More on Memory: the methods in closed form *)

Section memory_runs.
Implicit Types (w : World) (b : buffer) (self : ref) (o : Memory.t) (a v : Z).

Lemma World_eta w :
  {| heap := heap w; Memory_partitions := Memory_partitions w;
     Memory_objects := Memory_objects w |} = w.
Proof. by destruct w. Qed.

Lemma Memory_init_run w (n : Z) :
  Memory_init n w =
    if decide (n < 0)%Z then (Raise ValueError, w)
    else (Ok (length (Memory_objects w)),
          {| heap := heap w ++ [replicate (Z.to_nat n) 0%Z];
             Memory_partitions := Memory_partitions w;
             Memory_objects :=
               Memory_objects w
                 ++ [{| Memory.size := n; Memory.memory := length (heap w) |}] |}).
Proof. unfold_M. unfold bytearray. by case_decide. Qed.

Lemma Memory_reset_run w self o :
  Memory_objects w !! self = Some o →
  Memory_reset self w =
    if decide (Memory.size o < 0)%Z then (Raise ValueError, w)
    else (Ok tt,
          {| heap := heap w ++ [replicate (Z.to_nat (Memory.size o)) 0%Z];
             Memory_partitions := Memory_partitions w;
             Memory_objects :=
               <[self := {| Memory.size := Memory.size o;
                            Memory.memory := length (heap w) |}]> (Memory_objects w) |}).
Proof. intros Ho. unfold_M. rewrite Ho. unfold bytearray. by case_decide. Qed.

Lemma Memory_read_run w self o b a :
  Memory_objects w !! self = Some o →
  heap w !! Memory.memory o = Some b →
  Memory_read self a w =
    if decide (0 ≤ a < Memory.size o)%Z then
      match b !! Z.to_nat a with
      | Some v => (Ok v, w)
      | None => (Raise IndexError, w)
      end
    else (Raise IndexError, w).
Proof.
  intros Ho Hb. unfold_M. rewrite Ho. case_decide; [| done]. rewrite Hb.
  unfold getitem. by destruct (b !! Z.to_nat a).
Qed.

Lemma Memory_write_run w self o b a v :
  Memory_objects w !! self = Some o →
  heap w !! Memory.memory o = Some b →
  Memory_write self a v w =
    if decide (0 ≤ a < Memory.size o)%Z then
      if decide (0 ≤ v < 256)%Z then
        match b !! Z.to_nat a with
        | Some _ =>
            (Ok tt,
             {| heap := <[Memory.memory o := <[Z.to_nat a := v]> b]> (heap w);
                Memory_partitions := Memory_partitions w;
                Memory_objects := Memory_objects w |})
        | None => (Raise IndexError, w)
        end
      else (Raise ValueError, w)
    else (Raise IndexError, w).
Proof.
  intros Ho Hb. unfold_M. rewrite Ho. repeat (case_decide; [| done]).
  rewrite (on_buffer_run _ _ _ b) by done. unfold setitem.
  destruct (b !! Z.to_nat a); simpl; [done |].
  by rewrite list_insert_id, World_eta.
Qed.

Lemma Memory_add_run w self o b program loader :
  Memory_objects w !! self = Some o →
  heap w !! Memory.memory o = Some b →
  Memory_add self program loader w =
    ((Loader_load loader program b).1,
     {| heap := <[Memory.memory o := (Loader_load loader program b).2]> (heap w);
        Memory_partitions := Memory_partitions w;
        Memory_objects := Memory_objects w |}).
Proof. intros Ho Hb. unfold_M. rewrite Ho. by apply on_buffer_run. Qed.

Lemma buffer_of_lookup w self o :
  Memory_objects w !! self = Some o → buffer_of self w = heap w !! Memory.memory o.
Proof. unfold buffer_of. by intros ->. Qed.

End memory_runs.

(** ** More on Memory: what every call keeps *)

Section memory_invariants.
Implicit Types (w : World) (b : buffer) (self : ref) (o : Memory.t) (c : call).

(** A call on a reference that is no object does nothing. *)
Lemma exec_dangling c w self :
  receiver c = Some self → Memory_objects w !! self = None → exec c w = w.
Proof. destruct c; simpl; intros [= ->] Ho; unfold_M; by rewrite Ho. Qed.

Lemma Memory_covered_lookup w self o :
  Memory_covered w → Memory_objects w !! self = Some o →
  ∃ b, heap w !! Memory.memory o = Some b ∧
       (0 ≤ Memory.size o ≤ Z.of_nat (length b))%Z ∧
       Memory.memory o < length (heap w).
Proof.
  intros Hcov Ho. destruct (Hcov self o Ho) as (Hs & b & Hb & Hlen).
  exists b. split; [done |]. split; [lia | by eapply lookup_lt_Some].
Qed.

Lemma Memory_covered_grow w bs ps :
  Memory_covered w →
  Memory_covered {| heap := heap w ++ bs; Memory_partitions := ps;
                    Memory_objects := Memory_objects w |}.
Proof.
  intros Hcov self o Ho. destruct (Hcov self o Ho) as (Hs & b & Hb & Hlen).
  split; [done |]. exists b. split; [by apply lookup_app_l_Some | done].
Qed.

Lemma Memory_covered_store w (l : loc) b b' :
  Memory_covered w → heap w !! l = Some b → length b ≤ length b' →
  Memory_covered {| heap := <[l := b']> (heap w);
                    Memory_partitions := Memory_partitions w;
                    Memory_objects := Memory_objects w |}.
Proof.
  intros Hcov Hb Hlen self o Ho. destruct (Hcov self o Ho) as (Hs & b'' & Hb'' & Hlen'').
  split; [done |]. simpl. destruct (decide (Memory.memory o = l)) as [Heq | Hne].
  - exists b'. rewrite Heq, Hb in *. injection Hb'' as <-.
    split; [apply list_lookup_insert_eq; by eapply lookup_lt_Some | lia].
  - exists b''. by rewrite list_lookup_insert_ne.
Qed.

Lemma Memory_covered_bind w (n : Z) (f : list Memory.t → list Memory.t) :
  Memory_covered w →
  (0 ≤ n)%Z →
  (∀ self' o', f (Memory_objects w) !! self' = Some o' →
     o' = {| Memory.size := n; Memory.memory := length (heap w) |} ∨
     Memory_objects w !! self' = Some o') →
  Memory_covered {| heap := heap w ++ [replicate (Z.to_nat n) 0%Z];
                    Memory_partitions := Memory_partitions w;
                    Memory_objects := f (Memory_objects w) |}.
Proof.
  intros Hcov Hn Hf self' o' Ho'. simpl in *.
  destruct (Hf self' o' Ho') as [-> | Hold]; simpl.
  - split; [done |]. eexists. split; [by apply list_lookup_middle |].
    rewrite length_replicate. lia.
  - destruct (Hcov self' o' Hold) as (Hs & b' & Hb' & Hlen').
    split; [done |]. exists b'. split; [by apply lookup_app_l_Some | done].
Qed.

Lemma exec_Memory_covered c w : Memory_covered w → Memory_covered (exec c w).
Proof.
  intros Hcov. destruct c as [n | self | self program loader | self a | self a v | self s e].
  { simpl. rewrite Memory_init_run. case_decide; simpl; [done |].
    apply (Memory_covered_bind w n
             (λ os, os ++ [{| Memory.size := n; Memory.memory := length (heap w) |}]));
      [done | lia |].
    intros self' o' [Ho' | [_ Ho']]%lookup_app_Some; [by right | left].
    by apply list_lookup_singleton_Some in Ho' as [_ <-]. }
  all: destruct (Memory_objects w !! self) as [o |] eqn:Ho;
    [| by erewrite exec_dangling].
  all: destruct (Memory_covered_lookup w self o Hcov Ho) as (b & Hb & Hsize & Hlt); simpl.
  - rewrite (Memory_reset_run w self o Ho). case_decide; simpl; [done |].
    apply (Memory_covered_bind w (Memory.size o)
             (λ os, <[self := {| Memory.size := Memory.size o;
                                 Memory.memory := length (heap w) |}]> os));
      [done | lia |].
    intros self' o' [(_ & <- & _) | [_ Ho']]%list_lookup_insert_Some; [by left | by right].
  - rewrite (Memory_add_run w self o b) by done. simpl.
    eapply Memory_covered_store; [done | done |].
    apply Loader_load_length_ge.
  - rewrite (Memory_read_run w self o b) by done.
    case_decide; [destruct (b !! Z.to_nat a) |]; done.
  - rewrite (Memory_write_run w self o b) by done.
    repeat (case_decide; [| done]). destruct (b !! Z.to_nat a); [| done]. simpl.
    eapply Memory_covered_store; [done | done |]. by rewrite length_insert.
  - rewrite (Memory_partition_run w self o b) by done. case_decide; simpl; [| done].
    by apply Memory_covered_grow.
Qed.

Lemma exec_buffers_distinct c w :
  Memory_covered w → buffers_distinct w → buffers_distinct (exec c w).
Proof.
  intros Hcov Hdist.
  assert (∀ self o, Memory_objects w !! self = Some o →
                    Memory.memory o ≠ length (heap w)) as Hfresh.
  { intros self o Ho. destruct (Memory_covered_lookup w self o Hcov Ho) as (_ & _ & _ & ?).
    lia. }
  destruct c as [n | self | self program loader | self a | self a v | self s e].
  { simpl. rewrite Memory_init_run. case_decide; simpl; [done |].
    intros s1 s2 o1 o2 [H1 | [Hl1 H1]]%lookup_app_Some [H2 | [Hl2 H2]]%lookup_app_Some Heq;
      simpl in *.
    - by eapply Hdist.
    - apply list_lookup_singleton_Some in H2 as [_ <-]. by destruct (Hfresh s1 o1).
    - apply list_lookup_singleton_Some in H1 as [_ <-]. by destruct (Hfresh s2 o2).
    - apply list_lookup_singleton_Some in H1 as [? _].
      apply list_lookup_singleton_Some in H2 as [? _]. lia. }
  all: destruct (Memory_objects w !! self) as [o |] eqn:Ho;
    [| by erewrite exec_dangling].
  all: destruct (Memory_covered_lookup w self o Hcov Ho) as (b & Hb & Hsize & Hlt); simpl.
  - rewrite (Memory_reset_run w self o Ho). case_decide; simpl; [done |].
    intros s1 s2 o1 o2
      [(-> & <- & _) | [Hn1 H1]]%list_lookup_insert_Some
      [(-> & <- & _) | [Hn2 H2]]%list_lookup_insert_Some Heq; simpl in *.
    + done.
    + by destruct (Hfresh s2 o2).
    + by destruct (Hfresh s1 o1).
    + by eapply Hdist.
  - by rewrite (Memory_add_run w self o b).
  - rewrite (Memory_read_run w self o b) by done.
    case_decide; [destruct (b !! Z.to_nat a) |]; done.
  - rewrite (Memory_write_run w self o b) by done.
    repeat (case_decide; [| done]). by destruct (b !! Z.to_nat a).
  - rewrite (Memory_partition_run w self o b) by done. by case_decide.
Qed.

Lemma exec_World_wf c w : World_wf w → World_wf (exec c w).
Proof.
  intros [Hcov Hdist]. split; [by apply exec_Memory_covered | by apply exec_buffers_distinct].
Qed.

Lemma exec_all_World_wf cs : ∀ w, World_wf w → World_wf (exec_all cs w).
Proof.
  induction cs as [| c cs IH]; intros w Hw; [done |].
  apply IH. by apply exec_World_wf.
Qed.

Lemma World_wf_init : World_wf World_init.
Proof.
  split.
  - intros self o Ho. simpl in Ho. by rewrite lookup_nil in Ho.
  - intros s1 s2 o1 o2 Ho. simpl in Ho. by rewrite lookup_nil in Ho.
Qed.

End memory_invariants.

(** ** More on Memory: reads and writes *)

Section memory_more.
Implicit Types (w : World) (b : buffer) (self : ref) (o : Memory.t) (c : call) (a v : Z).

(** X13: in every store built by calls of the API from the initial one,
    adds of programs that overflow included, a read at an address below
    [size] returns a value and a write of a byte there succeeds: no call
    leaves a buffer shorter than [size]. *)
Theorem reachable_access_succeeds (cs : list call) self o a :
  Memory_objects (exec_all cs World_init) !! self = Some o →
  (0 ≤ a < Memory.size o)%Z →
  (∃ x, Memory_read self a (exec_all cs World_init) = (Ok x, exec_all cs World_init)) ∧
  (∀ v, (0 ≤ v < 256)%Z →
        ∃ w', Memory_write self a v (exec_all cs World_init) = (Ok tt, w')).
Proof.
  intros Ho Ha. pose proof (exec_all_World_wf cs _ World_wf_init) as [Hcov _].
  destruct (Memory_covered_lookup _ self o Hcov Ho) as (b & Hb & Hsize & _).
  destruct (lookup_lt_is_Some_2 b (Z.to_nat a)) as [x Hx]; [lia |].
  split.
  - exists x. rewrite (Memory_read_run _ self o b) by done.
    by rewrite decide_True, Hx.
  - intros v Hv. eexists. rewrite (Memory_write_run _ self o b) by done.
    by rewrite !decide_True, Hx.
Qed.

(** X14: a call changes neither the attributes nor the bytes of the buffer
    of any [Memory] object other than the one it is made on (unlike the
    partition records, which all objects share). *)
Theorem exec_isolated c w self o :
  World_wf w →
  Memory_objects w !! self = Some o →
  receiver c ≠ Some self →
  Memory_objects (exec c w) !! self = Some o ∧
  buffer_of self (exec c w) = buffer_of self w.
Proof.
  intros [Hcov Hdist] Ho Hrecv.
  destruct (Memory_covered_lookup w self o Hcov Ho) as (bo & Hbo & _ & Hlto).
  assert (∀ w', Memory_objects w' !! self = Some o →
                heap w' !! Memory.memory o = Some bo →
                Memory_objects w' !! self = Some o ∧
                buffer_of self w' = buffer_of self w) as Hsame.
  { intros w' Ho' Hb'. split; [done |].
    by rewrite !(buffer_of_lookup _ self o), Hb', Hbo. }
  destruct c as [n | self' | self' program loader | self' a | self' a v | self' s e].
  { simpl. rewrite Memory_init_run. case_decide; [by apply Hsame |].
    apply Hsame; simpl; by apply lookup_app_l_Some. }
  all: destruct (Memory_objects w !! self') as [o' |] eqn:Ho';
    [| erewrite exec_dangling by done; by apply Hsame].
  all: destruct (Memory_covered_lookup w self' o' Hcov Ho') as (b & Hb & _ & _).
  all: assert (self' ≠ self) as Hne by (simpl in Hrecv; congruence).
  all: assert (Memory.memory o' ≠ Memory.memory o) as Hmem
         by (intros Heq; by destruct Hne; eapply Hdist).
  all: simpl.
  - rewrite (Memory_reset_run w self' o' Ho'). case_decide; [by apply Hsame |].
    apply Hsame; simpl; [by rewrite list_lookup_insert_ne | by apply lookup_app_l_Some].
  - rewrite (Memory_add_run w self' o' b) by done.
    apply Hsame; simpl; [done | by rewrite list_lookup_insert_ne].
  - rewrite (Memory_read_run w self' o' b) by done.
    case_decide; [destruct (b !! Z.to_nat a) |]; by apply Hsame.
  - rewrite (Memory_write_run w self' o' b) by done.
    repeat (case_decide; [| by apply Hsame]).
    destruct (b !! Z.to_nat a); [| by apply Hsame].
    apply Hsame; simpl; [done | by rewrite list_lookup_insert_ne].
  - rewrite (Memory_partition_run w self' o' b) by done.
    case_decide; [| by apply Hsame].
    apply Hsame; simpl; [done | by apply lookup_app_l_Some].
Qed.

(** X8: a byte written at a valid address is the byte read back there; the
    other addresses read as before, and the partition records and the
    objects are unchanged. *)
Theorem Memory_write_then_read w self o b a v :
  Memory_objects w !! self = Some o →
  heap w !! Memory.memory o = Some b →
  (Memory.size o ≤ Z.of_nat (length b))%Z →
  (0 ≤ a < Memory.size o)%Z →
  (0 ≤ v < 256)%Z →
  ∃ w',
    Memory_write self a v w = (Ok tt, w') ∧
    Memory_read self a w' = (Ok v, w') ∧
    (∀ a', a' ≠ a → (Memory_read self a' w').1 = (Memory_read self a' w).1) ∧
    buffer_of self w' = Some (<[Z.to_nat a := v]> b) ∧
    Memory_partitions w' = Memory_partitions w ∧
    Memory_objects w' = Memory_objects w.
Proof.
  intros Ho Hb Hlen Ha Hv.
  destruct (lookup_lt_is_Some_2 b (Z.to_nat a)) as [x Hx]; [lia |].
  pose proof (lookup_lt_Some _ _ _ Hb) as Hlt.
  rewrite (Memory_write_run w self o b) by done. rewrite !decide_True, Hx by done.
  eexists. split; [done |].
  set (w' := {| heap := _; Memory_partitions := _; Memory_objects := _ |}).
  assert (Memory_objects w' !! self = Some o) as Ho' by done.
  assert (heap w' !! Memory.memory o = Some (<[Z.to_nat a := v]> b)) as Hb'
    by (by apply list_lookup_insert_eq).
  split_and!; [| | | done | done].
  - rewrite (Memory_read_run w' self o _ a Ho' Hb'), decide_True by done.
    by rewrite list_lookup_insert_eq by (by eapply lookup_lt_Some).
  - intros a' Hne.
    rewrite (Memory_read_run w' self o _ a' Ho' Hb'), (Memory_read_run w self o b) by done.
    case_decide; [| done].
    rewrite list_lookup_insert_ne by lia. by destruct (b !! Z.to_nat a').
  - by rewrite (buffer_of_lookup _ self o).
Qed.

(** X9: read and write at an address outside 0 .. size - 1 raise
    [IndexError], whatever the value; write of a value outside 0..255 at a
    valid address raises [ValueError]; the store is unchanged in each case. *)
Theorem Memory_access_errors w self o a :
  Memory_objects w !! self = Some o →
  (¬ (0 ≤ a < Memory.size o)%Z →
     Memory_read self a w = (Raise IndexError, w) ∧
     ∀ v, Memory_write self a v w = (Raise IndexError, w)) ∧
  ((0 ≤ a < Memory.size o)%Z →
     ∀ v, ¬ (0 ≤ v < 256)%Z → Memory_write self a v w = (Raise ValueError, w)).
Proof.
  intros Ho. split.
  - intros Ha. unfold_M. rewrite Ho. split; [| intros v]; by rewrite decide_False.
  - intros Ha v Hv. unfold_M. rewrite Ho. by rewrite decide_True, decide_False.
Qed.

(** X10: [reset] gives the object a new buffer of [size] zero bytes,
    whatever the length of the old one; the partition records and every
    bytearray that existed before, the old buffer included, are left as they
    were. *)
Theorem Memory_reset_zeroes w self o :
  Memory_objects w !! self = Some o →
  (0 ≤ Memory.size o)%Z →
  ∃ w',
    Memory_reset self w = (Ok tt, w') ∧
    buffer_of self w' = Some (replicate (Z.to_nat (Memory.size o)) 0%Z) ∧
    (∀ a, (0 ≤ a < Memory.size o)%Z → Memory_read self a w' = (Ok 0%Z, w')) ∧
    Memory_objects w' !! self
      = Some {| Memory.size := Memory.size o; Memory.memory := length (heap w) |} ∧
    Memory_partitions w' = Memory_partitions w ∧
    (∀ (l : loc) b, heap w !! l = Some b → heap w' !! l = Some b).
Proof.
  intros Ho Hsize. pose proof (lookup_lt_Some _ _ _ Ho) as Hlt.
  rewrite (Memory_reset_run w self o Ho), decide_False by lia.
  eexists. split; [done |].
  set (w' := {| heap := _; Memory_partitions := _; Memory_objects := _ |}).
  assert (Memory_objects w' !! self
          = Some {| Memory.size := Memory.size o; Memory.memory := length (heap w) |}) as Ho'
    by (by apply list_lookup_insert_eq).
  assert (heap w' !! length (heap w) = Some (replicate (Z.to_nat (Memory.size o)) 0%Z)) as Hb'
    by (by apply list_lookup_middle).
  split_and!; [| | done | done |].
  - by rewrite (buffer_of_lookup _ _ _ Ho').
  - intros a Ha. rewrite (Memory_read_run w' self _ _ a Ho' Hb'). simpl.
    rewrite decide_True by done. by rewrite lookup_replicate_2 by lia.
  - intros l b Hl. by apply lookup_app_l_Some.
Qed.

(** X7: [Memory(n)] fails with [ValueError] for a negative n and otherwise
    makes a new object whose addresses below n all read 0, next to the
    objects, bytearrays and partition records that exist, which it leaves as
    they were. *)
Theorem Memory_init_fresh w (n : Z) :
  ((n < 0)%Z → Memory_init n w = (Raise ValueError, w)) ∧
  ((0 ≤ n)%Z →
     ∃ w',
       Memory_init n w = (Ok (length (Memory_objects w)), w') ∧
       Memory_objects w' !! length (Memory_objects w)
         = Some {| Memory.size := n; Memory.memory := length (heap w) |} ∧
       buffer_of (length (Memory_objects w)) w' = Some (replicate (Z.to_nat n) 0%Z) ∧
       (∀ a, (0 ≤ a < n)%Z →
             Memory_read (length (Memory_objects w)) a w' = (Ok 0%Z, w')) ∧
       (∀ self o, Memory_objects w !! self = Some o → Memory_objects w' !! self = Some o) ∧
       (∀ (l : loc) b, heap w !! l = Some b → heap w' !! l = Some b) ∧
       Memory_partitions w' = Memory_partitions w).
Proof.
  rewrite Memory_init_run. split; intros Hn; [by rewrite decide_True |].
  rewrite decide_False by lia. eexists. split; [done |].
  set (w' := {| heap := _; Memory_partitions := _; Memory_objects := _ |}).
  assert (Memory_objects w' !! length (Memory_objects w)
          = Some {| Memory.size := n; Memory.memory := length (heap w) |}) as Ho'
    by (by apply list_lookup_middle).
  assert (heap w' !! length (heap w) = Some (replicate (Z.to_nat n) 0%Z)) as Hb'
    by (by apply list_lookup_middle).
  split_and!; [done | | | | | done].
  - by rewrite (buffer_of_lookup _ _ _ Ho').
  - intros a Ha. rewrite (Memory_read_run w' _ _ _ a Ho' Hb'). simpl.
    rewrite decide_True by done. by rewrite lookup_replicate_2 by lia.
  - intros self o Ho. by apply lookup_app_l_Some.
  - intros l b Hl. by apply lookup_app_l_Some.
Qed.

(** X11: after [add], on a memory that holds a zero byte, the instructions
    are read back from the place the loader chose (address 0 for
    StaticLoader, the lowest zero address for DynamicLoader), as far as they
    lie below [size]. *)
Theorem Memory_add_then_read w self o b program :
  Memory_objects w !! self = Some o →
  heap w !! Memory.memory o = Some b →
  (Memory.size o ≤ Z.of_nat (length b))%Z →
  0%Z ∈ b →
  ∃ i ws wd,
    lowest_zero b i ∧
    Memory_add self program StaticLoader w = (Ok tt, ws) ∧
    Memory_add self program DynamicLoader w = (Ok tt, wd) ∧
    ∀ k x, Program.instructions program !! k = Some x →
      ((Z.of_nat k < Memory.size o)%Z →
         Memory_read self (Z.of_nat k) ws = (Ok x, ws)) ∧
      ((Z.of_nat (i + k) < Memory.size o)%Z →
         Memory_read self (Z.of_nat (i + k)) wd = (Ok x, wd)).
Proof.
  intros Ho Hb Hlen Hin. destruct (lowest_zero_exists _ Hin) as [i Hi].
  pose proof (lowest_zero_lt _ _ Hi) as Hilt.
  pose proof (lookup_lt_Some _ _ _ Hb) as Hlt.
  rewrite !(Memory_add_run w self o b) by done. simpl.
  rewrite StaticLoader_load_found, (DynamicLoader_load_found _ _ i) by done. simpl.
  exists i. do 2 eexists. split_and!; [done | done | done |].
  intros k x Hk. pose proof (lookup_lt_Some _ _ _ Hk) as Hklt. split; intros Hsize.
  - erewrite Memory_read_run; [| done | by apply list_lookup_insert_eq].
    simpl. rewrite decide_True, Nat2Z.id by lia.
    by rewrite lookup_app_l, Hk by done.
  - erewrite Memory_read_run; [| done | by apply list_lookup_insert_eq].
    simpl. rewrite decide_True, Nat2Z.id by lia.
    rewrite lookup_app_r by (rewrite length_take; lia).
    rewrite length_take, Nat.min_l by lia.
    rewrite lookup_app_l by lia. replace (i + k - i) with k by lia. by rewrite Hk.
Qed.

(** X12: on a memory without any zero byte, [add] with either loader raises
    [MemoryError] and changes nothing in the store. *)
Theorem Memory_add_full w self o b program loader :
  Memory_objects w !! self = Some o →
  heap w !! Memory.memory o = Some b →
  0%Z ∉ b →
  loader ≠ BaseLoader →
  Memory_add self program loader w = (Raise MemoryError, w).
Proof.
  intros Ho Hb Hfull Hloader. rewrite (Memory_add_run w self o b) by done.
  assert (Loader_load loader program b = (Raise MemoryError, b)) as ->.
  { destruct loader; [done | by apply StaticLoader_load_full
                     | by apply DynamicLoader_load_full]. }
  simpl. by rewrite list_insert_id, World_eta.
Qed.

End memory_more.

Lemma reachable_access_succeeds_witness :
  (∃ x, Memory_read 0 3 (exec_all [Call_init 8; Call_add 0 program_1_2_3 DynamicLoader] World_init)
        = (Ok x, exec_all [Call_init 8; Call_add 0 program_1_2_3 DynamicLoader] World_init)) ∧
  (∀ v, (0 ≤ v < 256)%Z →
        ∃ w', Memory_write 0 3 v
                (exec_all [Call_init 8; Call_add 0 program_1_2_3 DynamicLoader] World_init)
              = (Ok tt, w')).
Proof.
  apply (reachable_access_succeeds [Call_init 8; Call_add 0 program_1_2_3 DynamicLoader] 0
           {| Memory.size := 8; Memory.memory := 0 |} 3).
  - reflexivity.
  - simpl. lia.
Defined.

Lemma exec_isolated_witness :
  Memory_objects (exec (Call_write 0 2 7) world_two_memories) !! 1
    = Some {| Memory.size := 8; Memory.memory := 1 |} ∧
  buffer_of 1 (exec (Call_write 0 2 7) world_two_memories)
    = buffer_of 1 world_two_memories.
Proof.
  apply (exec_isolated (Call_write 0 2 7) world_two_memories 1
           {| Memory.size := 8; Memory.memory := 1 |}).
  - apply (exec_all_World_wf [Call_init 8; Call_init 8] World_init World_wf_init).
  - reflexivity.
  - simpl. discriminate.
Defined.

Lemma Memory_write_then_read_witness :
  ∃ w',
    Memory_write 0 3 200 world_memory_8 = (Ok tt, w') ∧
    Memory_read 0 3 w' = (Ok 200%Z, w') ∧
    (∀ a', a' ≠ 3%Z → (Memory_read 0 a' w').1 = (Memory_read 0 a' world_memory_8).1) ∧
    buffer_of 0 w' = Some (<[Z.to_nat 3 := 200%Z]> (replicate 8 0%Z)) ∧
    Memory_partitions w' = Memory_partitions world_memory_8 ∧
    Memory_objects w' = Memory_objects world_memory_8.
Proof.
  apply (Memory_write_then_read world_memory_8 0
           {| Memory.size := 8; Memory.memory := 0 |} (replicate 8 0%Z) 3 200).
  - reflexivity.
  - reflexivity.
  - simpl. lia.
  - simpl. lia.
  - lia.
Defined.

Lemma Memory_access_errors_witness :
  (¬ (0 ≤ 8 < 8)%Z →
     Memory_read 0 8 world_memory_8 = (Raise IndexError, world_memory_8) ∧
     ∀ v, Memory_write 0 8 v world_memory_8 = (Raise IndexError, world_memory_8)) ∧
  ((0 ≤ 8 < 8)%Z →
     ∀ v, ¬ (0 ≤ v < 256)%Z →
          Memory_write 0 8 v world_memory_8 = (Raise ValueError, world_memory_8)).
Proof.
  apply (Memory_access_errors world_memory_8 0 {| Memory.size := 8; Memory.memory := 0 |} 8).
  reflexivity.
Defined.

Lemma Memory_reset_zeroes_witness :
  ∃ w',
    Memory_reset 0 world_memory_8_written = (Ok tt, w') ∧
    buffer_of 0 w' = Some (replicate (Z.to_nat 8) 0%Z) ∧
    (∀ a, (0 ≤ a < 8)%Z → Memory_read 0 a w' = (Ok 0%Z, w')) ∧
    Memory_objects w' !! 0 = Some {| Memory.size := 8; Memory.memory := 1 |} ∧
    Memory_partitions w' = Memory_partitions world_memory_8_written ∧
    (∀ (l : loc) b, heap world_memory_8_written !! l = Some b → heap w' !! l = Some b).
Proof.
  apply (Memory_reset_zeroes world_memory_8_written 0
           {| Memory.size := 8; Memory.memory := 0 |}).
  - reflexivity.
  - simpl. lia.
Defined.

Lemma Memory_init_fresh_witness :
  ∃ w',
    Memory_init 8 world_memory_2 = (Ok 1, w') ∧
    Memory_objects w' !! 1 = Some {| Memory.size := 8; Memory.memory := 1 |} ∧
    buffer_of 1 w' = Some (replicate (Z.to_nat 8) 0%Z) ∧
    (∀ a, (0 ≤ a < 8)%Z → Memory_read 1 a w' = (Ok 0%Z, w')) ∧
    (∀ self o, Memory_objects world_memory_2 !! self = Some o →
               Memory_objects w' !! self = Some o) ∧
    (∀ (l : loc) b, heap world_memory_2 !! l = Some b → heap w' !! l = Some b) ∧
    Memory_partitions w' = Memory_partitions world_memory_2.
Proof. apply (proj2 (Memory_init_fresh world_memory_2 8)). lia. Defined.

Lemma Memory_add_then_read_witness :
  ∃ i ws wd,
    lowest_zero (replicate 8 0%Z) i ∧
    Memory_add 0 program_1_2_3 StaticLoader world_memory_8 = (Ok tt, ws) ∧
    Memory_add 0 program_1_2_3 DynamicLoader world_memory_8 = (Ok tt, wd) ∧
    ∀ k x, [1; 2; 3]%Z !! k = Some x →
      ((Z.of_nat k < 8)%Z → Memory_read 0 (Z.of_nat k) ws = (Ok x, ws)) ∧
      ((Z.of_nat (i + k) < 8)%Z → Memory_read 0 (Z.of_nat (i + k)) wd = (Ok x, wd)).
Proof.
  apply (Memory_add_then_read world_memory_8 0
           {| Memory.size := 8; Memory.memory := 0 |} (replicate 8 0%Z) program_1_2_3).
  - reflexivity.
  - reflexivity.
  - simpl. lia.
  - apply list_elem_of_In. simpl. tauto.
Defined.

(** ** More on Pagination *)

Section pagination_more.
Implicit Types (w : World) (b : buffer) (memory : ref) (o : Memory.t) (page : Z).

Lemma length_page_records (d : loc) starts page_size size :
  length (page_records d starts page_size size) = length starts.
Proof. revert d. induction starts as [| i starts IH]; intros d; simpl; [done | by rewrite IH]. Qed.

Lemma lookup_page_records (d : loc) starts page_size size k i :
  starts !! k = Some i →
  page_records d starts page_size size !! k =
    Some {| Memory.start := i; Memory.end_ := Z.min (i + page_size) size;
            Memory.data := d + k |}.
Proof.
  revert d k. induction starts as [| j starts IH]; intros d [| k] Hk; simplify_eq/=.
  - by rewrite Nat.add_0_r.
  - rewrite (IH (S d) k Hk). by replace (d + S k) with (S d + k) by lia.
Qed.

Lemma lookup_pages (count k : Z) :
  is_Some ((list_to_map ((λ i, (i, tt)) <$> range 0 count 1) : gmap Z unit) !! k)
  ↔ (0 ≤ k < count)%Z.
Proof.
  rewrite <- not_eq_None_Some, <- not_elem_of_list_to_map.
  assert (∀ l : list Z, ((λ i, (i, tt)) <$> l).*1 = l) as ->
    by (induction l as [| x l IH]; [done | by rewrite !fmap_cons, IH]).
  rewrite elem_of_range by lia. rewrite Z.mod_1_r. split.
  - intros Hin. destruct (decide (0 ≤ k < count)%Z); [done |]. destruct Hin. lia.
  - intros Hk Hn. apply Hn. split; [lia | done].
Qed.

(** X15: with a page size between 1 and the size of the memory,
    construction succeeds, the page count is size // page size, [pages] has
    the keys 0 .. page count - 1, and one record is appended for each
    multiple of the page size below the size of the memory: the k-th runs
    from k * page size to that plus the page count, cut at the size of the
    memory, and its data is a new bytearray that holds the bytes of the
    buffer from its start to its end, the bytearrays that existed being left
    as they were. *)
Theorem Pagination_init_registers w memory o b page :
  Memory_objects w !! memory = Some o →
  heap w !! Memory.memory o = Some b →
  (0 < page ≤ Memory.size o)%Z →
  ∃ pg w',
    Pagination.init memory page w = (Ok pg, w') ∧
    Pagination.size pg = page ∧
    Pagination.memory pg = memory ∧
    Pagination.page_size pg = (Memory.size o `div` page)%Z ∧
    (∀ k, is_Some (Pagination.pages pg !! k) ↔ (0 ≤ k < Memory.size o `div` page)%Z) ∧
    length (Memory_partitions w') =
      length (Memory_partitions w) + Z.to_nat ((Memory.size o + page - 1) `div` page) ∧
    (∀ k : nat, (Z.of_nat k * page < Memory.size o)%Z →
       Memory_partitions w' !! (length (Memory_partitions w) + k) =
         Some {| Memory.start := Z.of_nat k * page;
                 Memory.end_ := Z.min (Z.of_nat k * page + Memory.size o `div` page)
                                      (Memory.size o);
                 Memory.data := length (heap w) + k |}) ∧
    (∀ k r, Memory_partitions w !! k = Some r → Memory_partitions w' !! k = Some r) ∧
    length (heap w') =
      length (heap w) + Z.to_nat ((Memory.size o + page - 1) `div` page) ∧
    (∀ k : nat, (Z.of_nat k * page < Memory.size o)%Z →
       heap w' !! (length (heap w) + k) =
         Some (take (Z.to_nat (Z.min (Z.of_nat k * page + Memory.size o `div` page)
                                     (Memory.size o))
                     - Z.to_nat (Z.of_nat k * page))
                    (drop (Z.to_nat (Z.of_nat k * page)) b))) ∧
    (∀ (l : loc) x, heap w !! l = Some x → heap w' !! l = Some x) ∧
    Memory_objects w' = Memory_objects w.
Proof.
  intros Ho Hb Hpage. unfold Pagination.init, bind at 1, attrs. rewrite Ho.
  rewrite decide_False by lia. unfold bind.
  assert (1 ≤ Memory.size o `div` page)%Z as Hcount
    by (apply Z.div_le_lower_bound; lia).
  rewrite (Pagination_init_loop memory o b _ _ w Ho Hb).
  2: { apply Forall_forall. intros i [Hi _]%elem_of_range; lia. }
  unfold ret. do 2 eexists. split; [done |]. simpl.
  assert (range_len 0 (Memory.size o) page
          = Z.to_nat ((Memory.size o + page - 1) `div` page)) as Hn.
  { unfold range_len. rewrite decide_True by lia. by rewrite Z.sub_0_r. }
  split_and!; [done | done | done | apply lookup_pages | | | | | | | done].
  - by rewrite length_app, length_page_records, length_range, Hn.
  - intros k Hk. rewrite lookup_app_r by lia.
    replace (length (Memory_partitions w) + k - length (Memory_partitions w)) with k by lia.
    rewrite (lookup_page_records _ _ _ _ k (0 + Z.of_nat k * page)%Z);
      [by rewrite Z.add_0_l |].
    rewrite lookup_range; [done |]. apply range_len_lt; lia.
  - intros k r Hk. by apply lookup_app_l_Some.
  - by rewrite length_app, length_fmap, length_range, Hn.
  - intros k Hk. rewrite lookup_app_r by lia.
    replace (length (heap w) + k - length (heap w)) with k by lia.
    rewrite list_lookup_fmap, lookup_range by (apply range_len_lt; lia). simpl.
    rewrite Z.add_0_l. f_equal. apply getslice_nat. lia.
  - intros l x Hl. by apply lookup_app_l_Some.
Qed.

(** X16: with a page size larger than the size of a non-empty memory, the
    page count is 0, the first range is empty and construction fails with
    [IndexError], no record being appended. *)
Theorem Pagination_init_page_too_large w memory o b page :
  Memory_objects w !! memory = Some o →
  heap w !! Memory.memory o = Some b →
  (0 < Memory.size o < page)%Z →
  Pagination.init memory page w = (Raise IndexError, w).
Proof.
  intros Ho Hb Hpage. unfold Pagination.init, bind at 1, attrs. rewrite Ho.
  rewrite decide_False by lia. rewrite Z.div_small by lia.
  assert (range 0 (Memory.size o) page = [0%Z]) as ->.
  { apply list_eq. intros [| k].
    - rewrite lookup_range; [done |]. apply range_len_lt; lia.
    - rewrite (lookup_ge_None_2 [0%Z] (S k)) by (simpl; lia).
      apply lookup_ge_None. rewrite length_range.
      destruct (decide (S k < range_len 0 (Memory.size o) page)) as [Hlt |]; [| lia].
      apply range_len_lt in Hlt; nia. }
  simpl. unfold bind.
  rewrite (Memory_partition_run w memory o b _ _ Ho Hb).
  by rewrite decide_False by lia.
Qed.

(** X17: a page size of 0 is a [ZeroDivisionError]; with a negative page
    size, or with a memory of size 0, construction succeeds without any page
    and without any partition record. *)
Theorem Pagination_init_degenerate w memory o page :
  Memory_objects w !! memory = Some o →
  (0 ≤ Memory.size o)%Z →
  (page = 0%Z → Pagination.init memory page w = (Raise ZeroDivisionError, w)) ∧
  ((page < 0 ∨ (0 < page ∧ Memory.size o = 0))%Z →
     Pagination.init memory page w =
       (Ok {| Pagination.size := page; Pagination.memory := memory;
              Pagination.page_size := (Memory.size o `div` page)%Z;
              Pagination.pages := ∅ |}, w)).
Proof.
  intros Ho Hsize. split.
  - intros ->. unfold Pagination.init, bind at 1, attrs. rewrite Ho.
    by rewrite decide_True.
  - intros Hpage. unfold Pagination.init, bind at 1, attrs. rewrite Ho.
    rewrite decide_False by lia.
    assert (range 0 (Memory.size o) page = []) as ->.
    { destruct Hpage as [? | [? ->]]; [by apply range_neg_step | by apply range_nil]. }
    assert (range 0 (Memory.size o `div` page) 1 = []) as ->.
    { apply range_nil; [| lia]. destruct Hpage as [? | [? ->]]; [| by rewrite Z.div_0_l by lia].
      assert (Memory.size o `div` page ≤ 0)%Z; [| lia].
      rewrite <- (Z.div_opp_opp (Memory.size o) page) by lia.
      apply Z.div_le_upper_bound; lia. }
    done.
Qed.

End pagination_more.

Lemma Pagination_init_registers_witness :
  ∃ pg w',
    Pagination.init 0 100 world_memory_512 = (Ok pg, w') ∧
    Pagination.size pg = 100%Z ∧
    Pagination.memory pg = 0 ∧
    Pagination.page_size pg = (512 `div` 100)%Z ∧
    (∀ k, is_Some (Pagination.pages pg !! k) ↔ (0 ≤ k < 512 `div` 100)%Z) ∧
    length (Memory_partitions w') = 0 + Z.to_nat ((512 + 100 - 1) `div` 100) ∧
    (∀ k : nat, (Z.of_nat k * 100 < 512)%Z →
       Memory_partitions w' !! (0 + k) =
         Some {| Memory.start := Z.of_nat k * 100;
                 Memory.end_ := Z.min (Z.of_nat k * 100 + 512 `div` 100) 512;
                 Memory.data := 1 + k |}) ∧
    (∀ k r, Memory_partitions world_memory_512 !! k = Some r →
            Memory_partitions w' !! k = Some r) ∧
    length (heap w') = 1 + Z.to_nat ((512 + 100 - 1) `div` 100) ∧
    (∀ k : nat, (Z.of_nat k * 100 < 512)%Z →
       heap w' !! (1 + k) =
         Some (take (Z.to_nat (Z.min (Z.of_nat k * 100 + 512 `div` 100) 512)
                     - Z.to_nat (Z.of_nat k * 100))
                    (drop (Z.to_nat (Z.of_nat k * 100)) (replicate 512 0%Z)))) ∧
    (∀ (l : loc) x, heap world_memory_512 !! l = Some x → heap w' !! l = Some x) ∧
    Memory_objects w' = Memory_objects world_memory_512.
Proof.
  apply (Pagination_init_registers world_memory_512 0
           {| Memory.size := 512; Memory.memory := 0 |} (replicate 512 0%Z) 100).
  - reflexivity.
  - reflexivity.
  - simpl. lia.
Defined.

Lemma Pagination_init_page_too_large_witness :
  Pagination.init 0 16 world_memory_8 = (Raise IndexError, world_memory_8).
Proof.
  apply (Pagination_init_page_too_large world_memory_8 0
           {| Memory.size := 8; Memory.memory := 0 |} (replicate 8 0%Z) 16).
  - reflexivity.
  - reflexivity.
  - simpl. lia.
Defined.

Lemma Pagination_init_degenerate_witness :
  Pagination.init 0 (-3) world_memory_8 =
    (Ok {| Pagination.size := -3; Pagination.memory := 0;
           Pagination.page_size := (8 `div` (-3))%Z; Pagination.pages := ∅ |},
     world_memory_8).
Proof.
  apply (proj2 (Pagination_init_degenerate world_memory_8 0
                  {| Memory.size := 8; Memory.memory := 0 |} (-3) eq_refl ltac:(simpl; lia))).
  lia.
Defined.

(** ** inspect *)

Section inspect.
Implicit Types (w : World) (b : buffer) (self : ref) (o : Memory.t)
  (parts : list Memory.partition_record) (out : list line) (i size : Z).

Lemma row_bytes_seq b (n : nat) : ∀ a : nat,
  a + n ≤ length b →
  row_bytes b (Z.of_nat <$> seq a n) = Ok (take n (drop a b)).
Proof.
  induction n as [| n IH]; intros a Hlen; [done |]. simpl.
  destruct (lookup_lt_is_Some_2 b a) as [x Hx]; [lia |].
  unfold getitem. rewrite Nat2Z.id, Hx, IH by lia.
  by rewrite (drop_S b x a).
Qed.

Lemma range_step_1 (i j : Z) :
  (0 ≤ i)%Z → range i j 1 = Z.of_nat <$> seq (Z.to_nat i) (Z.to_nat (j - i)).
Proof.
  intros Hi. unfold range, range_len. rewrite decide_True by lia.
  rewrite Z.div_1_r. replace (j - i + 1 - 1)%Z with (j - i)%Z by lia.
  apply list_eq. intros k. rewrite !list_lookup_fmap.
  destruct (decide (k < Z.to_nat (j - i))).
  - rewrite !lookup_seq_lt by done. simpl. f_equal. lia.
  - by rewrite !lookup_seq_ge by lia.
Qed.

Lemma row_bytes_range b i size :
  (0 ≤ i < size)%Z → (size ≤ Z.of_nat (length b))%Z →
  row_bytes b (range i (Z.min (i + 16) size) 1) = Ok (getslice b i (Z.min (i + 16) size)).
Proof.
  intros Hi Hlen. rewrite range_step_1, row_bytes_seq by lia.
  rewrite getslice_nat by lia. do 2 f_equal. lia.
Qed.

Lemma markers_cons part parts i :
  markers (part :: parts) i =
    (if decide (Memory.start part = i) then [Line_partition_start (Memory.start part)] else [])
    ++ (if decide (Memory.end_ part = i) then [Line_partition_end (Memory.end_ part)] else [])
    ++ markers parts i.
Proof. unfold markers. by rewrite bind_cons, app_assoc. Qed.

Lemma dump_cons b size parts i (starts : list Z) :
  dump b size parts (i :: starts) =
    markers parts i ++ [Line_row i (getslice b i (Z.min (i + 16) size))]
      ++ dump b size parts starts.
Proof. unfold dump. by rewrite bind_cons, app_assoc. Qed.

Lemma inspect_markers_run parts i : ∀ out,
  for_each parts
    (λ part,
       let* _ := (if decide (Memory.start part = i)
                  then print (Line_partition_start (Memory.start part))
                  else ret tt) in
       if decide (Memory.end_ part = i)
       then print (Line_partition_end (Memory.end_ part))
       else ret tt) out
  = (Ok tt, out ++ markers parts i).
Proof.
  induction parts as [| part parts IH]; intros out.
  - simpl. unfold ret. by rewrite app_nil_r.
  - rewrite markers_cons. cbn [for_each]. unfold bind at 1, bind at 1.
    repeat case_decide; unfold print, ret; rewrite IH;
      by rewrite <- ?app_assoc.
Qed.

Lemma inspect_row_run b size parts i out :
  (0 ≤ i < size)%Z → (size ≤ Z.of_nat (length b))%Z →
  inspect_row b size parts i out =
    (Ok tt, out ++ markers parts i ++ [Line_row i (getslice b i (Z.min (i + 16) size))]).
Proof.
  intros Hi Hlen. unfold inspect_row, bind at 1, lift.
  rewrite row_bytes_range by done. cbv beta iota. unfold bind at 1.
  rewrite inspect_markers_run. unfold print. by rewrite <- app_assoc.
Qed.

Lemma inspect_rows_run b size parts (starts : list Z) : ∀ out,
  Forall (λ i, 0 ≤ i < size)%Z starts → (size ≤ Z.of_nat (length b))%Z →
  for_each starts (inspect_row b size parts) out =
    (Ok tt, out ++ dump b size parts starts).
Proof.
  induction starts as [| i starts IH]; intros out Hstarts Hlen.
  - simpl. unfold ret, dump. simpl. by rewrite app_nil_r.
  - apply Forall_cons in Hstarts as [Hi Hstarts]. rewrite dump_cons. cbn [for_each].
    unfold bind. rewrite inspect_row_run, IH by done.
    by rewrite <- !app_assoc.
Qed.

(** [inspect] in closed form, when the buffer has at least [size] bytes. *)
Lemma Memory_inspect_run w self o b out :
  Memory_objects w !! self = Some o →
  heap w !! Memory.memory o = Some b →
  (Memory.size o ≤ Z.of_nat (length b))%Z →
  Memory_inspect self w out =
    (Ok tt, out ++ [Line_title; Line_header]
              ++ dump b (Memory.size o) (Memory_partitions w) (range 0 (Memory.size o) 16)).
Proof.
  intros Ho Hb Hlen. unfold Memory_inspect. rewrite Ho, Hb.
  unfold bind, print. rewrite inspect_rows_run; [by rewrite <- !app_assoc | | done].
  apply Forall_forall. intros i [Hi _]%elem_of_range; lia.
Qed.

Lemma row_contents_app out1 out2 :
  row_contents (out1 ++ out2) = row_contents out1 ++ row_contents out2.
Proof. apply omap_app. Qed.

Lemma row_contents_markers parts i : row_contents (markers parts i) = [].
Proof.
  induction parts as [| part parts IH]; [done |].
  rewrite markers_cons, !row_contents_app, IH. by repeat case_decide.
Qed.

Lemma row_contents_dump b size parts (starts : list Z) :
  row_contents (dump b size parts starts)
  = (λ i, getslice b i (Z.min (i + 16) size)) <$> starts.
Proof.
  induction starts as [| i starts IH]; [done |].
  rewrite dump_cons, !row_contents_app, row_contents_markers, IH. done.
Qed.

(** The rows of sixteen bytes, put end to end. *)
Lemma concat_rows b size (n : nat) : ∀ a : nat,
  (0 ≤ size ≤ Z.of_nat (length b))%Z →
  (16 * Z.of_nat (a + n) < size + 16)%Z →
  concat ((λ i, getslice b i (Z.min (i + 16) size))
            <$> ((λ k : nat, (0 + Z.of_nat k * 16)%Z) <$> seq a n))
  = take (Z.to_nat size `min` (16 * (a + n)) - 16 * a) (drop (16 * a) b).
Proof.
  induction n as [| n IH]; intros a Hsize Hlast.
  - assert (Z.to_nat size `min` (16 * (a + 0)) - 16 * a = 0) as -> by lia. done.
  - change (seq a (S n)) with (a :: seq (S a) n). rewrite !fmap_cons. cbn [concat].
    rewrite IH by lia. rewrite getslice_nat by lia.
    replace (Z.to_nat (0 + Z.of_nat a * 16)) with (16 * a) by lia.
    destruct (decide (16 * (a + 1) ≤ Z.to_nat size)).
    + replace (Z.to_nat ((0 + Z.of_nat a * 16 + 16) `min` size) - 16 * a) with 16 by lia.
      replace (16 * S a) with (16 * a + 16) by lia.
      rewrite <- drop_drop, take_take_drop. f_equal. lia.
    + replace (Z.to_nat size `min` (16 * (S a + n)) - 16 * S a) with 0 by lia.
      rewrite take_0, app_nil_r. f_equal. lia.
Qed.

(** X18: when the buffer holds at least [size] bytes, [inspect] returns
    normally; it writes the title and the header, and its rows, of at most
    sixteen bytes each, put end to end are the first [size] bytes of the
    buffer, in ceil(size / 16) rows; [Pagination.inspect] writes the same
    lines. *)
Theorem Memory_inspect_rows w self o b :
  Memory_objects w !! self = Some o →
  heap w !! Memory.memory o = Some b →
  (0 ≤ Memory.size o ≤ Z.of_nat (length b))%Z →
  ∃ out,
    Memory_inspect self w [] = (Ok tt, out) ∧
    take 2 out = [Line_title; Line_header] ∧
    concat (row_contents out) = take (Z.to_nat (Memory.size o)) b ∧
    length (row_contents out) = Z.to_nat ((Memory.size o + 15) `div` 16) ∧
    Forall (λ bytes, length bytes ≤ 16) (row_contents out) ∧
    ∀ pg, Pagination.memory pg = self → Pagination.inspect pg w [] = (Ok tt, out).
Proof.
  intros Ho Hb Hsize. rewrite (Memory_inspect_run w self o b) by (done || lia).
  eexists. split; [done |]. simpl.
  rewrite row_contents_dump.
  assert (range_len 0 (Memory.size o) 16 = Z.to_nat ((Memory.size o + 15) `div` 16)) as Hn.
  { unfold range_len. rewrite decide_True by lia. do 2 f_equal. lia. }
  split_and!; [done | | | |].
  - unfold range. rewrite concat_rows.
    + rewrite Nat.mul_0_r, Nat.sub_0_r, drop_0. f_equal.
      pose proof (range_len_lt 0 (Memory.size o) 16 (range_len 0 (Memory.size o) 16)).
      lia.
    + done.
    + destruct (range_len 0 (Memory.size o) 16) as [| n] eqn:Hlen; [lia |].
      pose proof (proj1 (range_len_lt 0 (Memory.size o) 16 n ltac:(lia))). lia.
  - by rewrite length_fmap, length_range.
  - apply Forall_fmap, Forall_forall. intros i [Hi _]%elem_of_range; [| lia]. simpl.
    rewrite getslice_nat by lia. rewrite length_take. lia.
  - intros pg <-. unfold Pagination.inspect. rewrite Ho, Hb.
    unfold bind, print. rewrite inspect_rows_run; [done | | lia].
    apply Forall_forall. intros i [Hi _]%elem_of_range; lia.
Qed.

Lemma elem_of_markers parts i (l : line) :
  l ∈ markers parts i ↔
    ∃ part, part ∈ parts ∧
      ((Memory.start part = i ∧ l = Line_partition_start i) ∨
       (Memory.end_ part = i ∧ l = Line_partition_end i)).
Proof.
  unfold markers. rewrite list_elem_of_bind. split.
  - intros (part & Hl & Hpart). exists part. split; [done |].
    apply elem_of_app in Hl as [Hl | Hl]; case_decide;
      try (by apply elem_of_nil in Hl);
      apply list_elem_of_singleton in Hl; subst; auto.
  - intros (part & Hpart & [[<- ->] | [<- ->]]); exists part; (split; [| done]);
      apply elem_of_app; [left | right]; rewrite decide_True by done;
      by apply list_elem_of_singleton.
Qed.

(** X19: the dump shows a start marker for an address x exactly when some
    partition record starts at x and x is a multiple of 16 below [size], and
    an end marker for x exactly when some record ends at x and x is a
    multiple of 16 below [size]; so a partition that ends at [size] gets no
    end marker. *)
Theorem Memory_inspect_markers w self o b (x : Z) :
  Memory_objects w !! self = Some o →
  heap w !! Memory.memory o = Some b →
  (Memory.size o ≤ Z.of_nat (length b))%Z →
  (Line_partition_start x ∈ (Memory_inspect self w []).2 ↔
     (∃ part, part ∈ Memory_partitions w ∧ Memory.start part = x) ∧
     (0 ≤ x < Memory.size o)%Z ∧ (x `mod` 16 = 0)%Z) ∧
  (Line_partition_end x ∈ (Memory_inspect self w []).2 ↔
     (∃ part, part ∈ Memory_partitions w ∧ Memory.end_ part = x) ∧
     (0 ≤ x < Memory.size o)%Z ∧ (x `mod` 16 = 0)%Z).
Proof.
  intros Ho Hb Hlen. rewrite (Memory_inspect_run w self o b) by done. simpl.
  assert (∀ l : line,
            (∀ i bytes, l ≠ Line_row i bytes) → l ≠ Line_title → l ≠ Line_header →
            l ∈ Line_title :: Line_header
                  :: dump b (Memory.size o) (Memory_partitions w) (range 0 (Memory.size o) 16)
            ↔ ∃ i, ((0 ≤ i < Memory.size o)%Z ∧ (i `mod` 16 = 0)%Z) ∧
                   l ∈ markers (Memory_partitions w) i) as Hin.
  { intros l Hrow Ht Hh. rewrite !elem_of_cons. unfold dump. rewrite list_elem_of_bind.
    split.
    - intros [? | [? | (i & Hl & Hi)]]; [done | done |].
      apply elem_of_range in Hi; [| lia]. rewrite Z.sub_0_r in Hi.
      apply elem_of_app in Hl as [Hl | Hl]; [by exists i |].
      apply list_elem_of_singleton in Hl. by destruct (Hrow _ _ Hl).
    - intros (i & Hi & Hl). right. right. exists i. split; [apply elem_of_app; by left |].
      apply elem_of_range; [lia |]. by rewrite Z.sub_0_r. }
  split; (rewrite Hin by done); split.
  - intros (i & Hi & (part & Hpart & [[Hs [= ->]] | [_ [=]]])%elem_of_markers). eauto.
  - intros ((part & Hpart & Hs) & Hx). exists x. split; [done |].
    apply elem_of_markers. exists part. auto.
  - intros (i & Hi & (part & Hpart & [[_ [=]] | [Hs [= ->]]])%elem_of_markers). eauto.
  - intros ((part & Hpart & Hs) & Hx). exists x. split; [done |].
    apply elem_of_markers. exists part. auto.
Qed.

End inspect.

Lemma Memory_inspect_rows_witness :
  ∃ out,
    Memory_inspect 0 world_memory_20_partitioned [] = (Ok tt, out) ∧
    take 2 out = [Line_title; Line_header] ∧
    concat (row_contents out)
      = take (Z.to_nat 20) (replicate 17 0%Z ++ [255; 0; 0]%Z) ∧
    length (row_contents out) = Z.to_nat ((20 + 15) `div` 16) ∧
    Forall (λ bytes, length bytes ≤ 16) (row_contents out) ∧
    ∀ pg, Pagination.memory pg = 0 →
          Pagination.inspect pg world_memory_20_partitioned [] = (Ok tt, out).
Proof.
  apply (Memory_inspect_rows world_memory_20_partitioned 0
           {| Memory.size := 20; Memory.memory := 0 |}
           (replicate 17 0%Z ++ [255; 0; 0]%Z)).
  - reflexivity.
  - reflexivity.
  - simpl. lia.
Defined.

Lemma Memory_inspect_markers_witness :
  (Line_partition_start 16 ∈ (Memory_inspect 0 world_memory_20_partitioned []).2 ↔
     (∃ part, part ∈ Memory_partitions world_memory_20_partitioned ∧ Memory.start part = 16%Z) ∧
     (0 ≤ 16 < 20)%Z ∧ (16 `mod` 16 = 0)%Z) ∧
  (Line_partition_end 16 ∈ (Memory_inspect 0 world_memory_20_partitioned []).2 ↔
     (∃ part, part ∈ Memory_partitions world_memory_20_partitioned ∧ Memory.end_ part = 16%Z) ∧
     (0 ≤ 16 < 20)%Z ∧ (16 `mod` 16 = 0)%Z).
Proof.
  apply (Memory_inspect_markers world_memory_20_partitioned 0
           {| Memory.size := 20; Memory.memory := 0 |}
           (replicate 17 0%Z ++ [255; 0; 0]%Z) 16).
  - reflexivity.
  - reflexivity.
  - simpl. lia.
Defined.

(** The dump of the store above, line by line and as characters. *)
Example Memory_inspect_run_example :
  (Memory_inspect 0 world_memory_20_partitioned []).2 =
    [ Line_title; Line_header;
      Line_partition_start 0;
      Line_row 0 (replicate 16 0%Z);
      Line_partition_end 16; Line_partition_start 16;
      Line_row 16 [0; 255; 0; 0]%Z ] ∧
  render (Line_row 16 [0; 255; 0; 0]%Z) = ADDRESS_COLOR +:+ "0010:" +:+ RESET +:+ " 00 ff 00 00" ∧
  render (Line_partition_end 16) = PARTITION_COLOR +:+ "Partition end 0010:" +:+ RESET.
Proof. split_and!; reflexivity. Qed.

(** ** The script *)

(** The script builds the program 1..16, paginates a memory of 512 bytes
    in pages of 64 (page count 8, records 0..8, 64..72, ...), writes the
    dump (a start marker for each record, no end marker) and loads the
    program at address 0. *)
Example main_run :
  match main with
  | Ok (p1, w, out) =>
      Program.instructions p1 = [1; 2; 3; 4; 5; 6; 7; 8; 9; 10; 11; 12; 13; 14; 15; 16]%Z ∧
      buffer_of 0 w
        = Some ([1; 2; 3; 4; 5; 6; 7; 8; 9; 10; 11; 12; 13; 14; 15; 16]%Z ++ replicate 496 0%Z) ∧
      (λ r, (Memory.start r, Memory.end_ r)) <$> Memory_partitions w
        = [(0, 8); (64, 72); (128, 136); (192, 200);
           (256, 264); (320, 328); (384, 392); (448, 456)]%Z ∧
      length out = 2 + 32 + 8 ∧
      length (row_contents out) = 32 ∧
      Line_partition_start 448 ∈ out ∧
      Line_partition_end 8 ∉ out
  | Raise _ => False
  end.
Proof.
  vm_compute. split_and!; try reflexivity.
  - apply list_elem_of_In. vm_compute. tauto.
  - intros Hin. apply list_elem_of_In in Hin. vm_compute in Hin.
    repeat (destruct Hin as [Hin | Hin]; [discriminate Hin |]). done.
Qed.

(** The store after [Memory(2)] and the writes of 5 and 6: no byte is 0. *)
Lemma Memory_add_full_witness :
  Memory_add 0 program_1_2_3 DynamicLoader
    (exec_all [Call_write 0 0 5; Call_write 0 1 6] world_memory_2)
  = (Raise MemoryError, exec_all [Call_write 0 0 5; Call_write 0 1 6] world_memory_2).
Proof.
  apply (Memory_add_full (exec_all [Call_write 0 0 5; Call_write 0 1 6] world_memory_2) 0
           {| Memory.size := 2; Memory.memory := 0 |} [5; 6]%Z).
  - reflexivity.
  - reflexivity.
  - intros Hin. apply list_elem_of_In in Hin. simpl in Hin. lia.
  - discriminate.
Defined.
